(** * Continuous extension of a DDE solution: [scipy/integrate/_dde/common.py]

    A shallow embedding of [ContinuousExt] (construction, scalar and batched
    evaluation, [reorganize]) and of [select_initial_step], together with the
    properties settled against them.

    Number model.  The source computes with IEEE doubles.  Every finite
    double is an integer multiple of [2^-1074], so a time or a state
    component is represented by that integer ([Z]); [EPS = 2^-52] is then
    [2^1022].  Comparisons are exact; the rounding of a difference such as
    [ts[i+1] - ts[i]] before it is compared to [EPS] is not modelled, nor
    are NaN and the infinities. *)

From Stdlib Require Import ZArith List Bool Lia Sorted Permutation.
From Stdlib Require Import Reals Lra.
Import ListNotations.
Open Scope Z_scope.

(** ** Values *)

Abbreviation time := Z (only parsing).
Abbreviation vec := (list Z) (only parsing).
(** A 2-D array of shape [(n_states, n_points)], held column by column. *)
Abbreviation matrix := (list (list Z)) (only parsing).

(** [EPS = np.finfo(float).eps], in units of [2^-1074]. *)
Definition EPS : Z := 2 ^ 1022.

(** [sec q] is the double [q / 4] (so [sec 4] is 1.0): a convenient scale
    for concrete inputs. *)
Definition sec (q : Z) : time := q * 2 ^ 1072.

(** ** Exceptions *)

Inductive error : Set :=
| ValueError
| IndexError
| TypeError
| UnboundLocalError.

Inductive result (A : Type) : Type :=
| Ok (a : A)
| Raise (e : error).
Arguments Ok {A} a.
Arguments Raise {A} e.

Definition bind {A B} (r : result A) (k : A -> result B) : result B :=
  match r with
  | Ok a => k a
  | Raise e => Raise e
  end.

Notation "x <- r ;; k" := (bind r (fun x => k))
  (at level 61, r at next level, right associativity).
Notation "' p <- r ;; k" := (bind r (fun x => let 'p := x in k))
  (at level 61, p pattern, r at next level, right associativity).

Fixpoint mapM {A B} (f : A -> result B) (l : list A) : result (list B) :=
  match l with
  | [] => Ok []
  | a :: l' => b <- f a ;; bs <- mapM f l' ;; Ok (b :: bs)
  end.

(** ** Python sequences *)

Module Py.

(** [l[i]] for a non-negative index. *)
Definition getitem {A} (l : list A) (i : nat) : result A :=
  match nth_error l i with
  | Some a => Ok a
  | None => Raise IndexError
  end.

(** [l[i]] for a signed index: a negative [i] counts from the end. *)
Definition index {A} (l : list A) (i : Z) : result A :=
  let n := Z.of_nat (length l) in
  if (0 <=? i) && (i <? n) then getitem l (Z.to_nat i)
  else if (- n <=? i) && (i <? 0) then getitem l (Z.to_nat (n + i))
  else Raise IndexError.

(** [l[:k]]. *)
Definition slice_to {A} (k : nat) (l : list A) : list A := firstn k l.

(** [l[a:b]]. *)
Definition slice {A} (a b : nat) (l : list A) : list A :=
  firstn (b - a) (skipn a l).

(** [[x for j, x in enumerate(l) if j not in idxs]], [j] counted from [from]. *)
Fixpoint drop_indices {A} (from : nat) (idxs : list nat) (l : list A) : list A :=
  match l with
  | [] => []
  | x :: l' =>
      if existsb (Nat.eqb from) idxs then drop_indices (S from) idxs l'
      else x :: drop_indices (S from) idxs l'
  end.

(** [[l[i] for i in idxs]]. *)
Definition gather {A} (l : list A) (idxs : list nat) : result (list A) :=
  mapM (getitem l) idxs.

(** [itertools.groupby(l)] on integers, each group given as
    [(key, len(list(group)))]. *)
Fixpoint groupby (l : list Z) : list (Z * nat) :=
  match l with
  | [] => []
  | x :: l' =>
      match groupby l' with
      | (k, c) :: gs => if x =? k then (k, S c) :: gs else (x, 1%nat) :: (k, c) :: gs
      | [] => [(x, 1%nat)]
      end
  end.

End Py.

(** ** NumPy primitives

    Modelled from NumPy's documented behaviour.  [searchsorted] follows its
    contract ([side='left']: [a[i-1] < v <= a[i]]; [side='right']:
    [a[i-1] <= v < a[i]]), which NumPy gives only for [a] sorted in
    ascending order; on other inputs the model carries no meaning, and the
    statements below that depend on the value returned are about sorted
    input. *)

Module Np.

(** [np.diff(a)] (also [np.ediff1d(a)] for a 1-D [a]). *)
Fixpoint diff (a : list Z) : list Z :=
  match a with
  | x :: (y :: _) as a' => (y - x) :: diff a'
  | _ => []
  end.

(** [np.any(d < EPS)]. *)
Definition any_lt_EPS (d : list Z) : bool := existsb (fun x => x <? EPS) d.

(** [(np.argwhere(d < EPS) + 1)[:, 0]], the positions of [d] counted from
    [from]. *)
Fixpoint argwhere_lt_EPS_succ (from : nat) (d : list Z) : list nat :=
  match d with
  | [] => []
  | x :: d' =>
      if x <? EPS then S from :: argwhere_lt_EPS_succ (S from) d'
      else argwhere_lt_EPS_succ (S from) d'
  end.

(** [np.all(d > 0)] and [np.all(d < 0)]. *)
Definition all_pos (d : list Z) : bool := forallb (fun x => 0 <? x) d.
Definition all_neg (d : list Z) : bool := forallb (fun x => x <? 0) d.

(** [np.searchsorted(a, v, side='left')]. *)
Fixpoint searchsorted_left (a : list Z) (v : Z) : nat :=
  match a with
  | [] => 0
  | x :: a' => if x <? v then S (searchsorted_left a' v) else 0
  end.

(** [np.searchsorted(a, v, side='right')]. *)
Fixpoint searchsorted_right (a : list Z) (v : Z) : nat :=
  match a with
  | [] => 0
  | x :: a' => if x <=? v then S (searchsorted_right a' v) else 0
  end.

Definition searchsorted (left : bool) (a : list Z) (v : Z) : nat :=
  if left then searchsorted_left a v else searchsorted_right a v.

(** [np.argsort(a)]: the indices that sort [a]; equal keys keep their
    input order. *)
Fixpoint insert_key (a : list Z) (i : nat) (order : list nat) : list nat :=
  match order with
  | [] => [i]
  | j :: order' =>
      if nth i a 0 <=? nth j a 0 then i :: j :: order'
      else j :: insert_key a i order'
  end.

Definition argsort (a : list Z) : list nat :=
  fold_right (insert_key a) [] (seq 0 (length a)).

(** [a[order]] (fancy indexing with in-range indices), for 1-D [a] and for
    the columns of a matrix ([m[:, order]]). *)
Definition take {A} (a : list A) (order : list nat) : result (list A) :=
  Py.gather a order.

(** [reverse = np.empty_like(order); reverse[order] = np.arange(len(order))]:
    [reverse[j]] is the position of [j] in [order]. *)
Fixpoint position (j : nat) (order : list nat) : nat :=
  match order with
  | [] => 0
  | i :: order' => if Nat.eqb i j then 0%nat else S (position j order')
  end.

Definition inverse_perm (order : list nat) : list nat :=
  map (fun j => position j order) (seq 0 (length order)).

(** [np.delete(a, idxs)]. *)
Definition delete {A} (a : list A) (idxs : list nat) : list A :=
  Py.drop_indices 0 idxs a.

(** [np.insert(a, idx, v)] for a scalar [idx]; [idx > len(a)] is an
    [IndexError]. *)
Definition insert {A} (a : list A) (idx : nat) (v : A) : result (list A) :=
  if (idx <=? length a)%nat then Ok (firstn idx a ++ v :: skipn idx a)
  else Raise IndexError.

End Np.

(** ** Interpolants

    What an entry of [interpolants] can be.  The first three are the
    representations the history segment dispatches on ([type(h) is list],
    [isfunction(h)], [isinstance(h, np.ndarray)]); [Dense] is a
    [DenseOutput] object: callable on a time and, on an array of times,
    returning one column per time.  A plain function met on a segment other
    than 0 is called on the whole sub-array; it is taken to be vectorised
    the same way. *)

Inductive interp : Type :=
| HistList (fs : list (time -> Z))
| HistFun (f : time -> vec)
| HistConst (v : vec)
| Dense (f : time -> vec).

(** [obj(t)] for a scalar [t]: lists and arrays are not callable. *)
Definition call_scalar (obj : interp) (t : time) : result vec :=
  match obj with
  | Dense f | HistFun f => Ok (f t)
  | HistList _ | HistConst _ => Raise TypeError
  end.

(** [obj(t)] for a 1-D array [t]. *)
Definition call_array (obj : interp) (t : list time) : result matrix :=
  match obj with
  | Dense f | HistFun f => Ok (map f t)
  | HistList _ | HistConst _ => Raise TypeError
  end.

(** ** The object *)

Record ContinuousExt : Type := mkContinuousExt {
  repeated_t : bool;
  idxs : list nat;
  t_discont : list time;
  y_discont : list vec;
  ys : list vec;
  n_segments : nat;
  ts : list time;
  interpolants : list interp;
  t_min : time;
  t_max : time;
  ascending : bool;
  ts_sorted : list time
}.

(** [ts.size == 2 and ts[0] == ts[-1]]. *)
Definition zero_segment (ts : list time) : bool :=
  match ts with
  | [a; b] => a =? b
  | _ => false
  end.

(** Lines 159-178: the discontinuity filter.  Returns [repeated_t], the
    recorded indices, times and values, and the working [ts] and [ys].
    The attributes [idxs], [t_discont], [y_discont] exist only when
    [repeated_t] holds; they are read under that guard only and are held
    as empty lists otherwise. *)
Definition filter_discont (ts : list time) (ys : list vec)
  : result (bool * list nat * list time * list vec * list time * list vec) :=
  if Np.any_lt_EPS (Np.diff ts) then
    let idxs := Np.argwhere_lt_EPS_succ 0 (Np.diff ts) in
    t_discont <- Py.gather ts idxs ;;
    y_discont <- Py.gather ys idxs ;;
    Ok (true, idxs, t_discont, y_discont,
        Py.drop_indices 0 idxs ts, Py.drop_indices 0 idxs ys)
  else Ok (false, [], [], [], ts, ys).

(** Lines 180-211, on the working [ts] and [ys]. *)
Definition init_checked (rep : bool) (idxs : list nat) (t_discont : list time)
    (y_discont : list vec) (ts : list time) (interpolants : list interp)
    (ys : list vec) : result ContinuousExt :=
  let d := Np.diff ts in
  let incr_decr := Np.all_pos d || Np.all_neg d in
  if negb (zero_segment ts || incr_decr) then Raise ValueError
  else
    let n_segments := length interpolants in
    if negb (Nat.eqb (length ts) (n_segments + 1))
       || negb (Nat.eqb (length ts) (length ys))
    then Raise ValueError
    else if negb (Nat.eqb (length ts) (length ys)) then Raise ValueError
    else if last ts 0 >=? hd 0 ts then
      Ok (mkContinuousExt rep idxs t_discont y_discont ys n_segments ts
            interpolants (hd 0 ts) (last ts 0) true ts)
    else
      Ok (mkContinuousExt rep idxs t_discont y_discont ys n_segments ts
            interpolants (last ts 0) (hd 0 ts) false (rev ts)).

(** [ContinuousExt.__init__(ts, interpolants, ys)]. *)
Definition __init__ (ts : list time) (interpolants : list interp)
    (ys : list vec) : result ContinuousExt :=
  '(rep, idxs, t_discont, y_discont, ts', ys') <- filter_discont ts ys ;;
  init_checked rep idxs t_discont y_discont ts' interpolants ys'.

(** ** Scalar evaluation *)

(** [np.any(np.abs(self.t_discont - t) < EPS)]. *)
Definition near_discont (self : ContinuousExt) (t : time) : bool :=
  existsb (fun td => Z.abs (td - t) <? EPS) (t_discont self).

(** Lines 226-233: [side='left'] when ascending, [side='right'] otherwise;
    clamp; flip. *)
Definition select_segment (self : ContinuousExt) (t : time) : Z :=
  let ind := Z.of_nat (Np.searchsorted (ascending self) (ts_sorted self) t) in
  let n := Z.of_nat (n_segments self) in
  let segment := Z.min (Z.max (ind - 1) 0) (n - 1) in
  if negb (ascending self) then n - 1 - segment else segment.

(** Lines 241-253: the three-way dispatch on the history representation.
    For any other object no branch binds [va]. *)
Definition eval_history (history : interp) (t : time) : result vec :=
  match history with
  | HistList fs => Ok (map (fun f => f t) fs)
  | HistFun f => Ok (f t)
  | HistConst v => Ok v
  | Dense _ => Raise UnboundLocalError
  end.

(** [ContinuousExt._call_single(t)]. *)
Definition _call_single (self : ContinuousExt) (t : time) : result vec :=
  if repeated_t self && near_discont self t then
    let ind := Np.searchsorted (ascending self) (t_discont self) t in
    Py.getitem (y_discont self) ind
  else
    let segment := select_segment self t in
    if segment =? 0 then
      history <- Py.index (interpolants self) segment ;;
      eval_history history t
    else
      obj <- Py.index (interpolants self) segment ;;
      call_scalar obj t.

(** ** Batched evaluation *)

(** Lines 302-310 on one entry of [t_sorted]. *)
Definition clamp_segment (self : ContinuousExt) (ind : nat) : Z :=
  let n := Z.of_nat (n_segments self) in
  let s := Z.of_nat ind - 1 in
  let s := if s <? 0 then 0 else s in
  let s := if s >? n - 1 then n - 1 else s in
  if negb (ascending self) then n - 1 - s else s.

Definition segments_of (self : ContinuousExt) (t_sorted : list time) : list Z :=
  map (fun t =>
         clamp_segment self (Np.searchsorted (ascending self) (ts_sorted self) t))
      t_sorted.

(** [y[:, k] = va] for a column of [n] rows: [va] must have [n] entries or
    broadcast from one. *)
Definition set_column (n : nat) (va : vec) : result vec :=
  if Nat.eqb (length va) n then Ok va
  else if Nat.eqb (length va) 1 then Ok (repeat (hd 0 va) n)
  else Raise ValueError.

(** Lines 323-333, the value for one point of a history run. *)
Definition history_value (interp0 : interp) (n : nat) (tk : time) : result vec :=
  match interp0 with
  | HistList fs => mapM (fun m => f <- Py.getitem fs m ;; Ok (f tk)) (seq 0 n)
  | HistFun f => Ok (f tk)
  | HistConst v => Ok v
  | Dense _ => Raise UnboundLocalError
  end.

(** Lines 318-334: a run on segment 0.  The loop reads [t[k]] for
    [k = 0 .. Nt-1], [t] being the query array before sorting. *)
Definition history_block (self : ContinuousExt) (segment : Z) (t : list time)
    (Nt : nat) : result matrix :=
  interp0 <- Py.index (interpolants self) segment ;;
  y0 <- Py.getitem (ys self) 0 ;;
  let n := length y0 in
  mapM (fun k =>
          tk <- Py.getitem t k ;;
          va <- history_value interp0 n tk ;;
          set_column n va)
       (seq 0 Nt).

(** Lines 312-338: the loop over the runs of equal segment index. *)
Fixpoint eval_groups (self : ContinuousExt) (t t_sorted : list time)
    (group_start : nat) (groups : list (Z * nat)) : result (list matrix) :=
  match groups with
  | [] => Ok []
  | (segment, len) :: groups' =>
      let group_end := (group_start + len)%nat in
      y <- (if segment =? 0 then
              history_block self segment t
                (length (Py.slice group_start group_end t_sorted))
            else
              obj <- Py.index (interpolants self) segment ;;
              call_array obj (Py.slice group_start group_end t_sorted)) ;;
      rest <- eval_groups self t t_sorted group_end groups' ;;
      Ok (y :: rest)
  end.

Definition rows (m : matrix) : nat :=
  match m with
  | [] => 0
  | c :: _ => length c
  end.

(** [np.hstack(blocks)]: needs at least one block and equal row counts. *)
Definition hstack (blocks : list matrix) : result matrix :=
  match blocks with
  | [] => Raise ValueError
  | b :: _ =>
      let m := concat blocks in
      if forallb (fun c => Nat.eqb (length c) (rows b)) m then Ok m
      else Raise ValueError
  end.

(** Lines 351-355: one extra column per recorded discontinuity. *)
Fixpoint reinsert (self : ContinuousExt) (ks : list nat) (t_tmp : list time)
    (ys : matrix) : result matrix :=
  match ks with
  | [] => Ok ys
  | k :: ks' =>
      td <- Py.getitem (t_discont self) k ;;
      let idx := S (Np.searchsorted_left t_tmp td) in
      t_tmp' <- Np.insert t_tmp idx td ;;
      yd <- Py.getitem (y_discont self) k ;;
      col <- set_column (rows ys) yd ;;
      ys' <- Np.insert ys idx col ;;
      reinsert self ks' t_tmp' ys'
  end.

(** Lines 282-298: the duplicate-marker check and the sort. *)
Definition prepare_times (self : ContinuousExt) (t : list time)
  : result (list time) :=
  if repeated_t self then
    if negb (Np.any_lt_EPS (Np.diff t)) then Raise ValueError
    else Ok (Np.delete t (Np.argwhere_lt_EPS_succ 0 (Np.diff t)))
  else Ok t.

(** [ContinuousExt.__call__(t)] for a 1-D array [t]. *)
Definition call_batched (self : ContinuousExt) (t : list time) : result matrix :=
  t <- prepare_times self t ;;
  let order := Np.argsort t in
  let reverse := Np.inverse_perm order in
  t_sorted <- Np.take t order ;;
  let segments := segments_of self t_sorted in
  blocks <- eval_groups self t t_sorted 0 (Py.groupby segments) ;;
  ys <- hstack blocks ;;
  ys <- Np.take ys reverse ;;
  if repeated_t self then
    reinsert self (seq 0 (length (idxs self))) t_sorted ys
  else Ok ys.

Inductive query : Type :=
| Scalar (t : time)
| Array (t : list time).

Inductive value : Type :=
| Vector (y : vec)
| Matrix (y : matrix).

(** [ContinuousExt.__call__(t)]: [t.ndim == 0] takes the scalar path. *)
Definition __call__ (self : ContinuousExt) (t : query) : result value :=
  match t with
  | Scalar t => y <- _call_single self t ;; Ok (Vector y)
  | Array t => y <- call_batched self t ;; Ok (Matrix y)
  end.

(** ** Range truncation *)

(** [ContinuousExt.reorganize(t0_new)]: only [ts] and [interpolants] are
    reassigned. *)
Definition reorganize (self : ContinuousExt) (t0_new : time) : ContinuousExt :=
  let idx := S (Np.searchsorted_left (ts self) t0_new) in
  mkContinuousExt (repeated_t self) (idxs self) (t_discont self)
    (y_discont self) (ys self) (n_segments self)
    (Py.slice_to idx (ts self)) (Py.slice_to idx (interpolants self))
    (t_min self) (t_max self) (ascending self) (ts_sorted self).

(** ** Parameter validation

    [validate_first_step], [validate_max_step] and [validate_tol], on the
    same exact numbers as the times.  A warning issued through [warn] is
    returned beside the result; its text is not modelled, only the value it
    reports. *)

(** [validate_first_step(first_step, t0, t_bound)]. *)
Definition validate_first_step (first_step t0 t_bound : Z) : result Z :=
  if first_step <=? 0 then Raise ValueError
  else if first_step >? Z.abs (t_bound - t0) then Raise ValueError
  else Ok first_step.

(** [validate_max_step(max_step)]. *)
Definition validate_max_step (max_step : Z) : result Z :=
  if max_step <=? 0 then Raise ValueError
  else Ok max_step.

(** [atol] after [np.asarray]: a 0-d or a 1-D array. *)
Inductive tolerance : Type :=
| TolScalar (a : Z)
| TolVector (a : list Z).

(** The warning of [validate_tol], with the value [rtol] is set to. *)
Inductive warning : Type :=
| RtolTooLow (set_to : Z).

(** [atol.ndim > 0 and atol.shape != (n,)]. *)
Definition wrong_shape (atol : tolerance) (n : nat) : bool :=
  match atol with
  | TolScalar _ => false
  | TolVector a => negb (Nat.eqb (length a) n)
  end.

(** [np.any(atol < 0)]. *)
Definition any_negative (atol : tolerance) : bool :=
  match atol with
  | TolScalar a => a <? 0
  | TolVector a => existsb (fun x => x <? 0) a
  end.

(** [validate_tol(rtol, atol, n)]: the warnings issued, then the pair
    returned or the exception raised. *)
Definition validate_tol (rtol : Z) (atol : tolerance) (n : nat)
  : list warning * result (Z * tolerance) :=
  let '(warnings, rtol) :=
    if rtol <? 100 * EPS then ([RtolTooLow (100 * EPS)], 100 * EPS)
    else ([], rtol) in
  if wrong_shape atol n then (warnings, Raise ValueError)
  else if any_negative atol then (warnings, Raise ValueError)
  else (warnings, Ok (rtol, atol)).

(** * The initial step

    [select_initial_step] is arithmetic on doubles; it is embedded over the
    real numbers: every operation is exact, there is no overflow, underflow
    or NaN, and [x ** y] for a positive base is [Rpower].  [np.inf] is a
    result of its own. *)

Section InitialStepModel.

Local Open Scope R_scope.

(** The step returned: [np.inf] or a finite number. *)
Inductive step : Type :=
| Unbounded
| Finite (h : R).

(** Element-wise operation on arrays of one shape. *)
Fixpoint zip_with (op : R -> R -> R) (x y : list R) : list R :=
  match x, y with
  | a :: x', b :: y' => op a b :: zip_with op x' y'
  | _, _ => []
  end.

(** [np.linalg.norm(x)]. *)
Definition norm2 (x : list R) : R :=
  sqrt (fold_right (fun a acc => a * a + acc) 0 x).

(** [norm(x)]: the RMS norm, [np.linalg.norm(x) / x.size ** 0.5]. *)
Definition norm (x : list R) : R := norm2 x / sqrt (INR (length x)).

(** The right-hand side [fun(t, y, Z)]; [Z] is the history term, of a type
    the step selection never inspects. *)
Variable History : Type.

Definition select_initial_step (fun_ : R -> list R -> History -> list R)
    (t0 : R) (y0 : list R) (Z0 : History) (f0 : list R)
    (direction order rtol atol : R) : step :=
  if Nat.eqb (length y0) 0 then Unbounded
  else
    let scale := map (fun y => atol + Rabs y * rtol) y0 in
    let d0 := norm (zip_with Rdiv y0 scale) in
    let d1 := norm (zip_with Rdiv f0 scale) in
    let h0 :=
      if Rlt_dec d0 1e-5 then 1e-6
      else if Rlt_dec d1 1e-5 then 1e-6
      else 0.01 * d0 / d1 in
    let y1 := zip_with (fun y f => y + h0 * direction * f) y0 f0 in
    let f1 := fun_ (t0 + h0 * direction) y1 Z0 in
    let d2 := norm (zip_with Rdiv (zip_with Rminus f1 f0) scale) / h0 in
    let h1 :=
      if Rle_dec d1 1e-15 then
        if Rle_dec d2 1e-15 then Rmax 1e-6 (h0 * 1e-3)
        else Rpower (0.01 / Rmax d1 d2) (1 / (order + 1))
      else Rpower (0.01 / Rmax d1 d2) (1 / (order + 1)) in
    Finite (Rmin (100 * h0) h1).

End InitialStepModel.

Arguments select_initial_step {History} fun_ t0 y0 Z0 f0 direction order rtol atol.

(** * Vocabulary of the specification *)

Definition strictly_increasing (l : list Z) : Prop := Sorted Z.lt l.
Definition strictly_decreasing (l : list Z) : Prop := Sorted Z.gt l.
Definition strictly_monotonic (l : list Z) : Prop :=
  strictly_increasing l \/ strictly_decreasing l.

(** A two-point zero-length segment. *)
Definition zero_length (l : list Z) : Prop := exists a, l = [a; a].

(** [min(ts)] and [max(ts)] of a non-empty sequence. *)
Definition list_min (l : list Z) : Z := fold_right Z.min (hd 0 l) l.
Definition list_max (l : list Z) : Z := fold_right Z.max (hd 0 l) l.

(** Two adjacent entries are near-duplicate: less than [EPS] apart. *)
Definition near_duplicate (a b : Z) : Prop := Z.abs (b - a) < EPS.

(** A query array marks a recorded jump: two adjacent entries are
    near-duplicate and lie at a recorded discontinuity time. *)
Definition marks_jump (self : ContinuousExt) (t : list time) : Prop :=
  exists j td,
    (S j < length t)%nat
    /\ near_duplicate (nth j t 0) (nth (S j) t 0)
    /\ In td (t_discont self)
    /\ near_duplicate td (nth (S j) t 0).

(** The times a query asks for. *)
Definition query_times (q : query) : list time :=
  match q with
  | Scalar t => [t]
  | Array t => t
  end.

(** The entries of [l] the discontinuity filter keeps, read along [ts]:
    the first one, and every later one whose time is at least [EPS] above
    the time just before it.  [prev] is that earlier time. *)
Fixpoint kept_from {A} (prev : Z) (ts : list Z) (l : list A) : list A :=
  match l with
  | [] => []
  | a :: l' =>
      match ts with
      | [] => a :: l'
      | x :: ts' =>
          if x - prev <? EPS then kept_from x ts' l'
          else a :: kept_from x ts' l'
      end
  end.

Definition kept {A} (ts : list Z) (l : list A) : list A :=
  match ts, l with
  | _, [] => []
  | [], _ => l
  | x :: ts', a :: l' => a :: kept_from x ts' l'
  end.

(** The entries the filter records as discontinuities: the others. *)
Fixpoint flagged_from {A} (prev : Z) (ts : list Z) (l : list A) : list A :=
  match l with
  | [] => []
  | a :: l' =>
      match ts with
      | [] => []
      | x :: ts' =>
          if x - prev <? EPS then a :: flagged_from x ts' l'
          else flagged_from x ts' l'
      end
  end.

Definition flagged {A} (ts : list Z) (l : list A) : list A :=
  match ts, l with
  | x :: ts', a :: l' => flagged_from x ts' l'
  | _, _ => []
  end.

(** The number of gaps of [ts] below [EPS]. *)
Definition jump_count (ts : list Z) : nat :=
  length (filter (fun d => d <? EPS) (Np.diff ts)).

(** Never decreasing. *)
Definition nondecreasing (l : list Z) : Prop := Sorted Z.le l.

(** ** The class invariant *)

(** What [__init__] establishes. *)
Record wf (self : ContinuousExt) : Prop := mk_wf {
  wf_shape :
    strictly_increasing (ts self) \/ strictly_decreasing (ts self)
    \/ zero_length (ts self);
  wf_len_ts : length (ts self) = S (n_segments self);
  wf_len_interp : length (interpolants self) = n_segments self;
  wf_len_ys : length (ys self) = length (ts self);
  wf_ascending : ascending self = (last (ts self) 0 >=? hd 0 (ts self));
  wf_ts_sorted :
    ts_sorted self = if ascending self then ts self else rev (ts self);
  wf_t_min : t_min self = if ascending self then hd 0 (ts self) else last (ts self) 0;
  wf_t_max : t_max self = if ascending self then last (ts self) 0 else hd 0 (ts self)
}.

Definition valid_shape (l : list Z) : Prop :=
  strictly_increasing l \/ strictly_decreasing l \/ zero_length l.

(** The two orientations an instance can have. *)
Inductive oriented (self : ContinuousExt) : Prop :=
| oriented_up :
    ascending self = true -> ts_sorted self = ts self ->
    strictly_increasing (ts self) \/ zero_length (ts self) ->
    oriented self
| oriented_down :
    ascending self = false -> ts_sorted self = rev (ts self) ->
    strictly_decreasing (ts self) ->
    oriented self.

(** What [_call_single] does once a segment is chosen (lines 235-255). *)
Definition eval_segment (segment : Z) (obj : interp) (t : time) : result vec :=
  if segment =? 0 then eval_history obj t else call_scalar obj t.

(** The column the scalar path gives for one time. *)
Definition scalar_column (self : ContinuousExt) (t : time) : list Z :=
  match _call_single self t with
  | Ok y => y
  | Raise _ => []
  end.

(** A time evaluated by the scalar path on a segment other than the
    history segment. *)
Definition off_history (self : ContinuousExt) (t : time) : Prop :=
  select_segment self t <> 0 /\ exists y, _call_single self t = Ok y.

(** ** Instances used as concrete inputs *)

(** Boundaries [0, 1, 2], a constant history and one dense output. *)
Definition up_instance : ContinuousExt :=
  mkContinuousExt false [] [] [] [[5]; [7]; [9]] 2 [sec 0; sec 4; sec 8]
    [HistConst [5]; Dense (fun t => [t])] (sec 0) (sec 8) true
    [sec 0; sec 4; sec 8].

(** Boundaries [10, 0, 5]: the decreasing step is recorded as a jump and
    the working boundaries [10, 5] are descending. *)
Definition down_instance : ContinuousExt :=
  mkContinuousExt true [1%nat] [sec 0] [[7]] [[5]; [9]] 1 [sec 40; sec 20]
    [HistFun (fun t => [t])] (sec 20) (sec 40) false [sec 20; sec 40].

(** Boundaries [0, 1, 1, 2]: a jump at [t = 1] from [[7]] to [[8]]. *)
Definition jump_instance : ContinuousExt :=
  mkContinuousExt true [2%nat] [sec 4] [[8]] [[5]; [7]; [9]] 2
    [sec 0; sec 4; sec 8] [HistConst [5]; Dense (fun t => [t])]
    (sec 0) (sec 8) true [sec 0; sec 4; sec 8].

(** Boundaries [0, 1, 2] with a time-dependent history [h(t) = [t]]. *)
Definition hist_instance : ContinuousExt :=
  mkContinuousExt false [] [] [] [[0]; [7]; [9]] 2 [sec 0; sec 4; sec 8]
    [HistFun (fun t => [t]); Dense (fun t => [t])] (sec 0) (sec 8) true
    [sec 0; sec 4; sec 8].

(** * Properties *)

(** ** Basic facts *)

Lemma EPS_pos : 0 < EPS.
Proof. reflexivity. Qed.

Lemma bind_Ok {A B} (r : result A) (k : A -> result B) (b : B) :
  bind r k = Ok b -> exists a, r = Ok a /\ k a = Ok b.
Proof. destruct r as [a|e]; simpl; [eauto | discriminate]. Qed.

Lemma getitem_Ok {A} (l : list A) (i : nat) (d : A) :
  (i < length l)%nat -> Py.getitem l i = Ok (nth i l d).
Proof.
  intros Hi. unfold Py.getitem.
  rewrite (nth_error_nth' l d Hi). reflexivity.
Qed.

Lemma getitem_Ok_inv {A} (l : list A) (i : nat) (a : A) :
  Py.getitem l i = Ok a -> nth_error l i = Some a.
Proof.
  unfold Py.getitem. destruct (nth_error l i); congruence.
Qed.

Lemma index_nat {A} (l : list A) (i : nat) :
  Py.index l (Z.of_nat i) = Py.getitem l i.
Proof.
  unfold Py.index.
  destruct (Z.ltb_spec (Z.of_nat i) (Z.of_nat (length l))) as [Hlt|Hge].
  - replace (0 <=? Z.of_nat i) with true by (symmetry; apply Z.leb_le; lia).
    simpl. now rewrite Nat2Z.id.
  - replace (0 <=? Z.of_nat i) with true by (symmetry; apply Z.leb_le; lia).
    replace (Z.of_nat i <? 0) with false by (symmetry; apply Z.ltb_ge; lia).
    simpl. rewrite andb_false_r.
    unfold Py.getitem.
    replace (nth_error l i) with (@None A); [reflexivity|].
    symmetry. apply nth_error_None. lia.
Qed.

(** ** Sorted sequences and [np.diff] *)

Lemma all_pos_diff_Sorted (l : list Z) :
  Np.all_pos (Np.diff l) = true <-> Sorted Z.lt l.
Proof.
  induction l as [|x [|y l'] IH]; simpl.
  - split; auto.
  - split; auto.
  - simpl in IH. split.
    + intros H. apply andb_true_iff in H as [Hxy Hrest].
      apply Z.ltb_lt in Hxy. constructor.
      * apply IH. exact Hrest.
      * constructor. lia.
    + intros H. inversion H as [|? ? Hs Hh]; subst.
      inversion Hh; subst.
      apply andb_true_iff. split.
      * apply Z.ltb_lt. lia.
      * apply IH. exact Hs.
Qed.

Lemma all_neg_diff_Sorted (l : list Z) :
  Np.all_neg (Np.diff l) = true <-> Sorted Z.gt l.
Proof.
  induction l as [|x [|y l'] IH]; simpl.
  - split; auto.
  - split; auto.
  - simpl in IH. split.
    + intros H. apply andb_true_iff in H as [Hxy Hrest].
      apply Z.ltb_lt in Hxy. constructor.
      * apply IH. exact Hrest.
      * constructor. lia.
    + intros H. inversion H as [|? ? Hs Hh]; subst.
      inversion Hh; subst.
      apply andb_true_iff. split.
      * apply Z.ltb_lt. lia.
      * apply IH. exact Hs.
Qed.

Lemma zero_segment_iff (l : list Z) :
  zero_segment l = true <-> zero_length l.
Proof.
  unfold zero_segment, zero_length.
  destruct l as [|a [|b [|c l']]]; split; intros H;
    try discriminate; try (destruct H; discriminate).
  - apply Z.eqb_eq in H. subst. eauto.
  - destruct H as [x Hx]. injection Hx as -> ->. apply Z.eqb_refl.
Qed.

Lemma Sorted_lt_strong (l : list Z) : Sorted Z.lt l -> StronglySorted Z.lt l.
Proof. apply Sorted_StronglySorted. intros x y z. apply Z.lt_trans. Qed.

Lemma Sorted_gt_strong (l : list Z) : Sorted Z.gt l -> StronglySorted Z.gt l.
Proof. apply Sorted_StronglySorted. intros x y z. lia. Qed.

(** ** The constructor *)

Lemma shape_check (l : list Z) :
  zero_segment l || (Np.all_pos (Np.diff l) || Np.all_neg (Np.diff l)) = true
  <-> valid_shape l.
Proof.
  unfold valid_shape, strictly_increasing, strictly_decreasing.
  rewrite !orb_true_iff, zero_segment_iff, all_pos_diff_Sorted,
    all_neg_diff_Sorted.
  tauto.
Qed.

Lemma init_checked_Ok rep ix td yd l interps vs self :
  init_checked rep ix td yd l interps vs = Ok self ->
  wf self /\ repeated_t self = rep /\ idxs self = ix /\ t_discont self = td
  /\ y_discont self = yd /\ ts self = l /\ interpolants self = interps
  /\ ys self = vs.
Proof.
  unfold init_checked.
  destruct (zero_segment l || (Np.all_pos (Np.diff l) || Np.all_neg (Np.diff l)))
    eqn:Hshape; simpl; [|discriminate].
  apply shape_check in Hshape.
  destruct (Nat.eqb_spec (length l) (length interps + 1)) as [Hn|Hn];
    simpl; [|discriminate].
  destruct (Nat.eqb_spec (length l) (length vs)) as [Hv|Hv];
    simpl; [|discriminate].
  destruct (last l 0 >=? hd 0 l) eqn:Hasc; intros H; injection H as <-;
    (split; [constructor; simpl; auto; lia | simpl; repeat split; reflexivity]).
Qed.

Lemma init_checked_invalid rep ix td yd l interps vs :
  ~ valid_shape l \/ length l <> S (length interps) \/ length l <> length vs ->
  init_checked rep ix td yd l interps vs = Raise ValueError.
Proof.
  intros H. unfold init_checked.
  destruct (zero_segment l || (Np.all_pos (Np.diff l) || Np.all_neg (Np.diff l)))
    eqn:Hshape; simpl; [|reflexivity].
  apply shape_check in Hshape.
  destruct (Nat.eqb_spec (length l) (length interps + 1)) as [Hn|Hn];
    simpl; [|reflexivity].
  destruct (Nat.eqb_spec (length l) (length vs)) as [Hv|Hv];
    simpl; [|reflexivity].
  exfalso. destruct H as [H|[H|H]]; [tauto | lia | lia].
Qed.

Lemma init_checked_valid rep ix td yd l interps vs :
  valid_shape l -> length l = S (length interps) -> length l = length vs ->
  exists self, init_checked rep ix td yd l interps vs = Ok self.
Proof.
  intros Hshape Hn Hv. unfold init_checked.
  apply shape_check in Hshape. rewrite Hshape. simpl.
  replace (Nat.eqb (length l) (length interps + 1)) with true
    by (symmetry; apply Nat.eqb_eq; lia).
  replace (Nat.eqb (length l) (length vs)) with true
    by (symmetry; apply Nat.eqb_eq; lia).
  simpl. destruct (last l 0 >=? hd 0 l); eauto.
Qed.

Lemma init_Ok ts0 interps ys0 self :
  __init__ ts0 interps ys0 = Ok self ->
  wf self /\ interpolants self = interps
  /\ filter_discont ts0 ys0 =
       Ok (repeated_t self, idxs self, t_discont self, y_discont self,
           ts self, ys self).
Proof.
  unfold __init__. intros H.
  apply bind_Ok in H as [[[[[[rep ix] td] yd] l] vs] [Hf Hc]].
  apply init_checked_Ok in Hc
    as (Hwf & <- & <- & <- & <- & <- & Hi & <-).
  auto.
Qed.

(** ** Minimum and maximum of an increasing sequence *)

Lemma fold_min_lower (x : Z) (l : list Z) :
  Forall (fun y => x < y) l -> fold_right Z.min x l = x.
Proof.
  induction 1 as [|y l Hy _ IH]; simpl; [reflexivity|].
  rewrite IH. lia.
Qed.

Lemma last_In (l : list Z) (x d : Z) : In (last (x :: l) d) (x :: l).
Proof.
  revert x. induction l as [|y l IH]; intros x.
  - left. reflexivity.
  - right. apply (IH y).
Qed.

Lemma fold_max_last (l : list Z) :
  StronglySorted Z.lt l ->
  forall d, Forall (fun y => d <= y) l -> fold_right Z.max d l = last l d.
Proof.
  induction 1 as [|x l Hs IH Hx]; intros d Hd; [reflexivity|].
  inversion Hd as [|? ? Hdx Hdl]; subst.
  destruct l as [|y l'].
  - simpl. lia.
  - change (last (x :: y :: l') d) with (last (y :: l') d).
    change (fold_right Z.max d (x :: y :: l'))
      with (Z.max x (fold_right Z.max d (y :: l'))).
    rewrite (IH d Hdl).
    pose proof (last_In l' y d) as Hin.
    rewrite Forall_forall in Hx. specialize (Hx _ Hin). lia.
Qed.

Lemma increasing_min (l : list Z) :
  strictly_increasing l -> list_min l = hd 0 l.
Proof.
  intros H. apply Sorted_lt_strong in H.
  destruct H as [|x l Hs Hx]; [reflexivity|].
  unfold list_min. simpl. rewrite (fold_min_lower x l Hx). lia.
Qed.

Lemma last_any_default (l : list Z) (x d d' : Z) :
  last (x :: l) d = last (x :: l) d'.
Proof.
  revert x. induction l as [|y l IH]; intros x; [reflexivity|].
  apply (IH y).
Qed.

Lemma increasing_max (l : list Z) :
  strictly_increasing l -> list_max l = last l 0.
Proof.
  intros H. apply Sorted_lt_strong in H.
  destruct l as [|x l]; [reflexivity|].
  unfold list_max. simpl hd.
  rewrite (fold_max_last (x :: l) H x).
  - apply last_any_default.
  - inversion H as [|? ? Hs Hx]; subst. constructor; [lia|].
    eapply Forall_impl; [|exact Hx]. simpl. intros; lia.
Qed.

Lemma increasing_last_ge_hd (l : list Z) :
  strictly_increasing l -> hd 0 l <= last l 0.
Proof.
  intros H. apply Sorted_lt_strong in H.
  destruct H as [|x l Hs Hx]; [simpl; lia|].
  destruct l as [|y l']; [simpl; lia|].
  pose proof (last_In l' y 0) as Hin.
  rewrite Forall_forall in Hx. specialize (Hx _ Hin).
  change (last (x :: y :: l') 0) with (last (y :: l') 0). simpl hd. lia.
Qed.

(** Gaps of at least [EPS] are not flagged as jumps. *)
Lemma no_flag (l : list Z) :
  Forall (fun d => EPS <= d) (Np.diff l) -> Np.any_lt_EPS (Np.diff l) = false.
Proof.
  unfold Np.any_lt_EPS. induction 1 as [|d ds Hd _ IH]; [reflexivity|].
  simpl. rewrite IH.
  replace (d <? EPS) with false by (symmetry; apply Z.ltb_ge; exact Hd).
  reflexivity.
Qed.

Lemma resolved_gaps_increasing (l : list Z) :
  Forall (fun d => EPS <= d) (Np.diff l) -> strictly_increasing l.
Proof.
  intros H. apply all_pos_diff_Sorted. unfold Np.all_pos.
  apply forallb_forall. intros d Hd.
  rewrite Forall_forall in H. specialize (H _ Hd).
  pose proof EPS_pos. apply Z.ltb_lt. lia.
Qed.

(** ** C2, C6, C7: construction *)

(** C2 (as amended).  For every boundary sequence [ts] whose adjacent gaps
    are all at least [EPS] (hence strictly increasing), with
    [len(interpolants) == len(ts) - 1] and [len(ys) == len(ts)],
    construction succeeds, no discontinuity is recorded, and afterwards
    [t_min == min(ts)] and [t_max == max(ts)]. *)
Theorem C2_increasing_construction_succeeds
    (ts0 : list time) (interps : list interp) (ys0 : list vec) :
  Forall (fun d => EPS <= d) (Np.diff ts0) ->
  length ts0 = S (length interps) ->
  length ys0 = length ts0 ->
  exists self,
    __init__ ts0 interps ys0 = Ok self
    /\ repeated_t self = false /\ ts self = ts0
    /\ t_min self = list_min ts0 /\ t_max self = list_max ts0.
Proof.
  intros Hgap Hn Hv.
  pose proof (resolved_gaps_increasing ts0 Hgap) as Hinc.
  destruct (init_checked_valid false [] [] [] ts0 interps ys0) as [self Hself];
    [left; exact Hinc | exact Hn | symmetry; exact Hv |].
  exists self.
  assert (Hinit : __init__ ts0 interps ys0 = Ok self).
  { unfold __init__, filter_discont. rewrite (no_flag ts0 Hgap). exact Hself. }
  apply init_checked_Ok in Hself as (Hwf & Hrep & _ & _ & _ & Hts & _ & _).
  pose proof (increasing_last_ge_hd ts0 Hinc) as Hle.
  assert (Hasc : ascending self = true).
  { rewrite (wf_ascending self Hwf), Hts. apply Z.geb_le. exact Hle. }
  repeat split; auto.
  - rewrite (wf_t_min self Hwf), Hasc, Hts. symmetry. now apply increasing_min.
  - rewrite (wf_t_max self Hwf), Hasc, Hts. symmetry. now apply increasing_max.
Qed.

Lemma C2_increasing_construction_succeeds_witness :
  exists self,
    __init__ [sec 0; sec 4; sec 8] [HistConst [5]; Dense (fun t => [t])]
      [[5]; [7]; [9]] = Ok self
    /\ repeated_t self = false /\ ts self = [sec 0; sec 4; sec 8]
    /\ t_min self = list_min [sec 0; sec 4; sec 8]
    /\ t_max self = list_max [sec 0; sec 4; sec 8].
Proof.
  apply C2_increasing_construction_succeeds.
  - repeat constructor; vm_compute; discriminate.
  - reflexivity.
  - reflexivity.
Defined.

(** C2, as stated, fails: [0.0, 2^-53] is strictly increasing and the
    lengths are consistent, but the gap is below [EPS], so the second entry
    is taken for a jump and the length check rejects the input. *)
Lemma C2_counterexample :
  ~ (forall (ts0 : list time) (interps : list interp) (ys0 : list vec),
        strictly_monotonic ts0 ->
        length ts0 = S (length interps) ->
        length ys0 = length ts0 ->
        exists self,
          __init__ ts0 interps ys0 = Ok self
          /\ t_min self = list_min ts0 /\ t_max self = list_max ts0).
Proof.
  intros H.
  destruct (H [0; EPS / 2] [HistConst [5]] [[5]; [7]]) as (self & Hself & _).
  - left. repeat constructor.
  - reflexivity.
  - reflexivity.
  - vm_compute in Hself. discriminate.
Qed.



(** C7 (the code departs from it).  A boundary sequence of two equal
    times with one interpolant and two state values is rejected: the zero
    gap is flagged as a jump, the second entry is dropped, and the length
    check fails before the zero-segment case can apply. *)
Theorem C7_zero_segment_rejected (a : time) (h : interp) (y0 y1 : vec) :
  __init__ [a; a] [h] [y0; y1] = Raise ValueError.
Proof.
  unfold __init__, filter_discont. simpl Np.diff.
  rewrite Z.sub_diag. reflexivity.
Qed.

(** *** Every flagged gap costs a boundary *)

Lemma argwhere_In (d : list Z) :
  forall from p x,
    nth_error d p = Some x -> x < EPS ->
    In (S (from + p)) (Np.argwhere_lt_EPS_succ from d).
Proof.
  induction d as [|y d IH]; intros from p x Hp Hx; [destruct p; discriminate|].
  simpl. destruct p as [|p]; simpl in Hp.
  - injection Hp as ->.
    replace (x <? EPS) with true by (symmetry; apply Z.ltb_lt; exact Hx).
    left. f_equal. lia.
  - specialize (IH (S from) p x Hp Hx).
    replace (S (from + S p)) with (S (S from + p)) by lia.
    destruct (y <? EPS); [right|]; exact IH.
Qed.

Lemma argwhere_any (d : list Z) (p : nat) (x : Z) :
  nth_error d p = Some x -> x < EPS -> Np.any_lt_EPS d = true.
Proof.
  intros Hp Hx. unfold Np.any_lt_EPS. apply existsb_exists.
  exists x. split; [eapply nth_error_In; eassumption | now apply Z.ltb_lt].
Qed.

Lemma diff_nth (l : list Z) :
  forall i, (S i < length l)%nat ->
    nth_error (Np.diff l) i = Some (nth (S i) l 0 - nth i l 0).
Proof.
  induction l as [|x [|y l'] IH]; intros i Hi; simpl in Hi; try lia.
  destruct i as [|i]; [reflexivity|].
  change (Np.diff (x :: y :: l')) with ((y - x) :: Np.diff (y :: l')).
  simpl nth_error. rewrite IH by (simpl; lia). reflexivity.
Qed.

Lemma argwhere_bound (d : list Z) :
  forall from j,
    In j (Np.argwhere_lt_EPS_succ from d) ->
    (from < j <= from + length d)%nat.
Proof.
  induction d as [|x d IH]; intros from j Hj; [contradiction|].
  simpl in Hj. destruct (x <? EPS).
  - destruct Hj as [<-|Hj]; [simpl; lia|].
    apply IH in Hj. simpl. lia.
  - apply IH in Hj. simpl. lia.
Qed.

Lemma diff_length (l : list Z) : length (Np.diff l) = (length l - 1)%nat.
Proof.
  induction l as [|x [|y l'] IH]; try reflexivity.
  change (Np.diff (x :: y :: l')) with ((y - x) :: Np.diff (y :: l')).
  simpl length in *. rewrite IH. lia.
Qed.

Lemma gather_in_range {A} (l : list A) (ix : list nat) :
  (forall j, In j ix -> (j < length l)%nat) ->
  exists r, Py.gather l ix = Ok r.
Proof.
  unfold Py.gather. induction ix as [|j ix IH]; intros Hix;
    [exists []; reflexivity|].
  destruct IH as [r Hr]; [intros k Hk; apply Hix; now right|].
  specialize (Hix j (or_introl eq_refl)).
  destruct (nth_error l j) as [a|] eqn:Ha;
    [|apply nth_error_None in Ha; lia].
  exists (a :: r). cbn [mapM]. unfold Py.getitem at 1.
  rewrite Ha. cbn [bind]. rewrite Hr. reflexivity.
Qed.

Lemma drop_indices_length_le {A} (ix : list nat) (l : list A) :
  forall from, (length (Py.drop_indices from ix l) <= length l)%nat.
Proof.
  induction l as [|x l IH]; intros from; simpl; [lia|].
  destruct (existsb (Nat.eqb from) ix); simpl; specialize (IH (S from)); lia.
Qed.

Lemma drop_indices_length_lt {A} (ix : list nat) (l : list A) (j : nat) :
  In j ix ->
  forall from, (from <= j < from + length l)%nat ->
    (length (Py.drop_indices from ix l) < length l)%nat.
Proof.
  intros Hj. induction l as [|x l IH]; intros from Hrange;
    simpl in Hrange; [lia|].
  simpl. destruct (existsb (Nat.eqb from) ix) eqn:Hex.
  - pose proof (drop_indices_length_le ix l (S from)). lia.
  - simpl. assert (Hne : from <> j).
    { intros ->. apply Bool.not_true_iff_false in Hex. apply Hex.
      apply existsb_exists. exists j. split; [exact Hj | apply Nat.eqb_refl]. }
    specialize (IH (S from)). lia.
Qed.

(** With one interpolant per gap of the input [ts], any gap below [EPS]
    (a zero gap, a gap too small to resolve, a decreasing step) makes the
    constructor fail: the flagged entry is removed and the length check no
    longer holds. *)
Lemma flagged_gap_rejected
    (ts0 : list time) (interps : list interp) (ys0 : list (list Z)) (i : nat) :
  (S i < length ts0)%nat ->
  nth (S i) ts0 0 - nth i ts0 0 < EPS ->
  length ts0 = S (length interps) ->
  length ys0 = length ts0 ->
  __init__ ts0 interps ys0 = Raise ValueError.
Proof.
  intros Hi Hgap Hn Hv.
  pose proof (diff_nth ts0 i Hi) as Hd.
  pose proof (argwhere_In _ 0 i _ Hd Hgap) as Hin. simpl in Hin.
  assert (Hrange : forall j,
             In j (Np.argwhere_lt_EPS_succ 0 (Np.diff ts0)) ->
             (j < length ts0)%nat).
  { intros j Hj. apply argwhere_bound in Hj. rewrite diff_length in Hj. lia. }
  destruct (gather_in_range ts0 _ Hrange) as [td Htd].
  destruct (gather_in_range ys0 (Np.argwhere_lt_EPS_succ 0 (Np.diff ts0)))
    as [yd Hyd]; [intros j Hj; rewrite Hv; auto|].
  unfold __init__, filter_discont.
  rewrite (argwhere_any _ _ _ Hd Hgap), Htd. cbn [bind]. rewrite Hyd.
  cbn [bind]. apply init_checked_invalid. right. left.
  pose proof (drop_indices_length_lt _ ts0 (S i) Hin 0%nat ltac:(lia)). lia.
Qed.

(** In particular every strictly decreasing sequence of two or more
    boundaries is rejected: the gap test [np.ediff1d(ts) < EPS] is signed. *)
Lemma descending_boundaries_rejected
    (ts0 : list time) (interps : list interp) (ys0 : list (list Z)) :
  strictly_decreasing ts0 ->
  (2 <= length ts0)%nat ->
  length ts0 = S (length interps) ->
  length ys0 = length ts0 ->
  __init__ ts0 interps ys0 = Raise ValueError.
Proof.
  intros Hdec Hlen Hn Hv.
  apply (flagged_gap_rejected ts0 interps ys0 0); auto; try lia.
  destruct ts0 as [|x [|y l]]; simpl in Hlen; try lia.
  inversion Hdec as [|? ? _ Hh]; subst. inversion Hh; subst.
  simpl. pose proof EPS_pos. lia.
Qed.

(** ** [np.searchsorted] on sorted input *)

Lemma searchsorted_left_le (l : list Z) (v : Z) :
  (Np.searchsorted_left l v <= length l)%nat.
Proof.
  induction l as [|x l IH]; simpl; [lia|].
  destruct (x <? v); lia.
Qed.

Lemma searchsorted_right_le (l : list Z) (v : Z) :
  (Np.searchsorted_right l v <= length l)%nat.
Proof.
  induction l as [|x l IH]; simpl; [lia|].
  destruct (x <=? v); lia.
Qed.

Lemma searchsorted_le (side : bool) (l : list Z) (v : Z) :
  (Np.searchsorted side l v <= length l)%nat.
Proof.
  destruct side; [apply searchsorted_left_le | apply searchsorted_right_le].
Qed.

Lemma searchsorted_left_above (l : list Z) (v : Z) :
  Forall (fun x => v <= x) l -> Np.searchsorted_left l v = 0%nat.
Proof.
  destruct 1 as [|x l Hx _]; simpl; [reflexivity|].
  replace (x <? v) with false by (symmetry; apply Z.ltb_ge; lia).
  reflexivity.
Qed.

Lemma searchsorted_right_above (l : list Z) (v : Z) :
  Forall (fun x => v < x) l -> Np.searchsorted_right l v = 0%nat.
Proof.
  destruct 1 as [|x l Hx _]; simpl; [reflexivity|].
  replace (x <=? v) with false by (symmetry; apply Z.leb_gt; lia).
  reflexivity.
Qed.

Lemma searchsorted_left_below (l : list Z) (v : Z) :
  Forall (fun x => x < v) l -> Np.searchsorted_left l v = length l.
Proof.
  induction 1 as [|x l Hx _ IH]; simpl; [reflexivity|].
  replace (x <? v) with true by (symmetry; apply Z.ltb_lt; lia).
  now rewrite IH.
Qed.

Lemma searchsorted_right_below (l : list Z) (v : Z) :
  Forall (fun x => x <= v) l -> Np.searchsorted_right l v = length l.
Proof.
  induction 1 as [|x l Hx _ IH]; simpl; [reflexivity|].
  replace (x <=? v) with true by (symmetry; apply Z.leb_le; lia).
  now rewrite IH.
Qed.

(** An exact hit on a strictly increasing array: [side='left'] returns the
    position of the hit, [side='right'] the position after it. *)
Lemma searchsorted_left_nth (l : list Z) :
  StronglySorted Z.lt l ->
  forall i d, (i < length l)%nat -> Np.searchsorted_left l (nth i l d) = i.
Proof.
  induction 1 as [|x l Hs IH Hx]; intros i d Hi; simpl in Hi; [lia|].
  destruct i as [|i]; simpl.
  - now rewrite Z.ltb_irrefl.
  - assert (Hlt : x < nth i l d).
    { rewrite Forall_forall in Hx. apply Hx. apply nth_In. lia. }
    replace (x <? nth i l d) with true by (symmetry; apply Z.ltb_lt; lia).
    rewrite IH by lia. reflexivity.
Qed.

Lemma searchsorted_right_nth (l : list Z) :
  StronglySorted Z.lt l ->
  forall i d, (i < length l)%nat -> Np.searchsorted_right l (nth i l d) = S i.
Proof.
  induction 1 as [|x l Hs IH Hx]; intros i d Hi; simpl in Hi; [lia|].
  destruct i as [|i]; simpl.
  - rewrite Z.leb_refl. now rewrite (searchsorted_right_above l x Hx).
  - assert (Hlt : x < nth i l d).
    { rewrite Forall_forall in Hx. apply Hx. apply nth_In. lia. }
    replace (x <=? nth i l d) with true by (symmetry; apply Z.leb_le; lia).
    rewrite IH by lia. reflexivity.
Qed.

(** ** Reversal *)

Lemma StronglySorted_snoc (R : Z -> Z -> Prop) (l : list Z) (x : Z) :
  StronglySorted R l -> Forall (fun y => R y x) l ->
  StronglySorted R (l ++ [x]).
Proof.
  induction 1 as [|y l Hs IH Hy]; intros Hx; simpl.
  - repeat constructor.
  - inversion Hx as [|? ? Hyx Hlx]; subst. constructor.
    + apply IH. exact Hlx.
    + apply Forall_app. split; [exact Hy | repeat constructor; exact Hyx].
Qed.

Lemma decreasing_rev (l : list Z) :
  strictly_decreasing l -> StronglySorted Z.lt (rev l).
Proof.
  intros H. apply Sorted_gt_strong in H.
  induction H as [|x l Hs IH Hx]; simpl; [constructor|].
  apply StronglySorted_snoc; [exact IH|].
  apply Forall_forall. intros y Hy. apply in_rev in Hy.
  rewrite Forall_forall in Hx. specialize (Hx _ Hy). lia.
Qed.

Lemma nth_rev_flip (l : list Z) (i : nat) (d : Z) :
  (i < length l)%nat -> nth i l d = nth (length l - S i) (rev l) d.
Proof.
  intros Hi. rewrite rev_nth by lia.
  f_equal. lia.
Qed.

Lemma decreasing_last_lt_hd (l : list Z) :
  strictly_decreasing l -> (2 <= length l)%nat -> last l 0 < hd 0 l.
Proof.
  intros H Hlen. apply Sorted_gt_strong in H.
  destruct H as [|x l Hs Hx]; [simpl in Hlen; lia|].
  destruct l as [|y l']; [simpl in Hlen; lia|].
  pose proof (last_In l' y 0) as Hin.
  rewrite Forall_forall in Hx. specialize (Hx _ Hin).
  change (last (x :: y :: l') 0) with (last (y :: l') 0). simpl hd. lia.
Qed.

(** ** Orientation *)

Lemma wf_oriented (self : ContinuousExt) : wf self -> oriented self.
Proof.
  intros Hwf.
  pose proof (wf_ascending self Hwf) as Hasc.
  pose proof (wf_ts_sorted self Hwf) as Hsorted.
  pose proof (wf_len_ts self Hwf) as Hlen.
  destruct (ascending self) eqn:Ha; symmetry in Hasc.
  - apply oriented_up; auto.
    destruct (wf_shape self Hwf) as [H|[H|H]]; auto.
    apply Z.geb_le in Hasc.
    destruct (ts self) as [|x [|y l]] eqn:Hts; [discriminate | |].
    + left. repeat constructor.
    + pose proof (decreasing_last_lt_hd (x :: y :: l) H). simpl length in *. lia.
  - apply oriented_down; auto.
    assert (Hlt : last (ts self) 0 < hd 0 (ts self)).
    { destruct (Z.geb_spec (last (ts self) 0) (hd 0 (ts self)));
        [discriminate | lia]. }
    destruct (wf_shape self Hwf) as [H|[H|[a H]]]; auto.
    + pose proof (increasing_last_ge_hd _ H). lia.
    + rewrite H in Hlt. simpl in Hlt. lia.
Qed.

(** ** C3: the tie-break at a boundary *)

Lemma call_single_regular (self : ContinuousExt) (t : time) :
  repeated_t self && near_discont self t = false ->
  _call_single self t =
    (obj <- Py.index (interpolants self) (select_segment self t) ;;
     eval_segment (select_segment self t) obj t).
Proof.
  intros H. unfold _call_single, eval_segment. rewrite H.
  destruct (select_segment self t =? 0); reflexivity.
Qed.

Lemma select_segment_boundary (self : ContinuousExt) (i : nat) :
  wf self -> (0 < i < length (ts self))%nat ->
  select_segment self (nth i (ts self) 0) = Z.of_nat i - 1.
Proof.
  intros Hwf Hi.
  pose proof (wf_len_ts self Hwf) as Hlen.
  unfold select_segment.
  destruct (wf_oriented self Hwf) as [Ha Hs [Hinc|[a Hz]] | Ha Hs Hdec];
    rewrite Ha, Hs; simpl negb; cbv iota; unfold Np.searchsorted.
  - rewrite searchsorted_left_nth by (auto using Sorted_lt_strong || lia).
    lia.
  - rewrite Hz in *. simpl in Hi, Hlen.
    assert (i = 1%nat) by lia. subst i. simpl nth.
    simpl. rewrite Z.ltb_irrefl. simpl. lia.
  - rewrite (nth_rev_flip (ts self) i 0) by lia.
    rewrite searchsorted_right_nth;
      [| apply decreasing_rev; exact Hdec | rewrite length_rev; lia].
    lia.
Qed.

(** C3.  A query at a boundary [ts[i]], [i > 0], that is not answered from
    the discontinuity table (in particular on an instance without
    discontinuities) selects segment [i - 1], the lower-indexed of the two
    adjacent segments, in both orientations, and is evaluated with
    [interpolants[i - 1]]. *)
Theorem C3_boundary_selects_lower_segment (self : ContinuousExt) (i : nat) :
  wf self ->
  (0 < i < length (ts self))%nat ->
  repeated_t self && near_discont self (nth i (ts self) 0) = false ->
  select_segment self (nth i (ts self) 0) = Z.of_nat i - 1
  /\ exists obj,
      nth_error (interpolants self) (i - 1) = Some obj
      /\ _call_single self (nth i (ts self) 0) =
           eval_segment (Z.of_nat i - 1) obj (nth i (ts self) 0).
Proof.
  intros Hwf Hi Hreg.
  pose proof (select_segment_boundary self i Hwf Hi) as Hseg.
  split; [exact Hseg|].
  pose proof (wf_len_ts self Hwf) as Hlen.
  pose proof (wf_len_interp self Hwf) as Hlen'.
  destruct (nth_error (interpolants self) (i - 1)) as [obj|] eqn:Hobj.
  - exists obj. split; [reflexivity|].
    rewrite (call_single_regular self _ Hreg), Hseg.
    replace (Z.of_nat i - 1) with (Z.of_nat (i - 1)) by lia.
    rewrite index_nat. unfold Py.getitem. rewrite Hobj. reflexivity.
  - apply nth_error_None in Hobj. lia.
Qed.

Lemma jump_instance_init :
  __init__ [sec 0; sec 4; sec 4; sec 8] [HistConst [5]; Dense (fun t => [t])]
    [[5]; [7]; [8]; [9]] = Ok jump_instance.
Proof. reflexivity. Qed.

Lemma hist_instance_init :
  __init__ [sec 0; sec 4; sec 8] [HistFun (fun t => [t]); Dense (fun t => [t])]
    [[0]; [7]; [9]] = Ok hist_instance.
Proof. reflexivity. Qed.

Lemma up_instance_init :
  __init__ [sec 0; sec 4; sec 8] [HistConst [5]; Dense (fun t => [t])]
    [[5]; [7]; [9]] = Ok up_instance.
Proof. reflexivity. Qed.

Lemma down_instance_init :
  __init__ [sec 40; sec 0; sec 20] [HistFun (fun t => [t])] [[5]; [7]; [9]]
  = Ok down_instance.
Proof. reflexivity. Qed.

Lemma jump_instance_wf : wf jump_instance.
Proof. exact (proj1 (init_Ok _ _ _ _ jump_instance_init)). Qed.

Lemma hist_instance_wf : wf hist_instance.
Proof. exact (proj1 (init_Ok _ _ _ _ hist_instance_init)). Qed.

Lemma up_instance_wf : wf up_instance.
Proof. exact (proj1 (init_Ok _ _ _ _ up_instance_init)). Qed.

Lemma down_instance_wf : wf down_instance.
Proof. exact (proj1 (init_Ok _ _ _ _ down_instance_init)). Qed.

Lemma C3_boundary_selects_lower_segment_witness :
  (select_segment up_instance (sec 8) = 1
   /\ exists obj,
       nth_error (interpolants up_instance) 1 = Some obj
       /\ _call_single up_instance (sec 8) = eval_segment 1 obj (sec 8))
  /\ (select_segment down_instance (sec 20) = 0
      /\ exists obj,
          nth_error (interpolants down_instance) 0 = Some obj
          /\ _call_single down_instance (sec 20) = eval_segment 0 obj (sec 20)).
Proof.
  split.
  - apply (C3_boundary_selects_lower_segment up_instance 2).
    + exact up_instance_wf.
    + simpl. lia.
    + reflexivity.
  - apply (C3_boundary_selects_lower_segment down_instance 1).
    + exact down_instance_wf.
    + simpl. lia.
    + reflexivity.
Defined.

(** ** C10: clamping *)

Lemma StronglySorted_lt_le (l : list Z) :
  StronglySorted Z.lt l -> StronglySorted Z.le l.
Proof.
  induction 1 as [|x l Hs IH Hx]; constructor; [exact IH|].
  eapply Forall_impl; [|exact Hx]. simpl. intros; lia.
Qed.

Lemma last_rev_hd (l : list Z) : last (rev l) 0 = hd 0 l.
Proof. destruct l as [|x l]; [reflexivity | simpl; apply last_last]. Qed.

Lemma hd_rev_last (l : list Z) : hd 0 (rev l) = last l 0.
Proof. rewrite <- (rev_involutive l) at 2. symmetry. apply last_rev_hd. Qed.

(** The cached view is sorted and spans [t_min .. t_max]. *)
Lemma wf_sorted_view (self : ContinuousExt) :
  wf self ->
  StronglySorted Z.le (ts_sorted self)
  /\ t_min self = hd 0 (ts_sorted self)
  /\ t_max self = last (ts_sorted self) 0.
Proof.
  intros Hwf.
  pose proof (wf_t_min self Hwf) as Hmin.
  pose proof (wf_t_max self Hwf) as Hmax.
  destruct (wf_oriented self Hwf) as [Ha Hs [Hinc|[a Hz]] | Ha Hs Hdec];
    rewrite Ha in Hmin, Hmax; rewrite Hs.
  - auto using StronglySorted_lt_le, Sorted_lt_strong.
  - split; [|auto]. rewrite Hz. repeat constructor; lia.
  - rewrite hd_rev_last, last_rev_hd.
    auto using StronglySorted_lt_le, decreasing_rev.
Qed.

Lemma sorted_above_hd (l : list Z) (t : Z) :
  StronglySorted Z.le l -> l <> [] -> t < hd 0 l -> Forall (fun x => t < x) l.
Proof.
  destruct 1 as [|x l Hs Hx]; intros Hne Ht; [congruence|].
  simpl in Ht. constructor; [exact Ht|].
  eapply Forall_impl; [|exact Hx]. simpl. intros; lia.
Qed.

Lemma sorted_below_last (l : list Z) (t : Z) :
  StronglySorted Z.le l -> l <> [] -> last l 0 < t -> Forall (fun x => x < t) l.
Proof.
  induction 1 as [|x l Hs IH Hx]; intros Hne Ht; [congruence|].
  destruct l as [|y l'].
  - simpl in Ht. repeat constructor. exact Ht.
  - change (last (x :: y :: l') 0) with (last (y :: l') 0) in Ht.
    assert (Hl : Forall (fun z => z < t) (y :: l')) by (apply IH; congruence).
    constructor; [|exact Hl].
    inversion Hx; inversion Hl; subst. lia.
Qed.

Lemma select_segment_range (self : ContinuousExt) (t : time) :
  (1 <= n_segments self)%nat ->
  0 <= select_segment self t <= Z.of_nat (n_segments self) - 1.
Proof.
  intros Hn. unfold select_segment.
  destruct (ascending self); simpl negb; cbv iota; lia.
Qed.

Lemma clamp_segment_range (self : ContinuousExt) (ind : nat) :
  (1 <= n_segments self)%nat ->
  0 <= clamp_segment self ind <= Z.of_nat (n_segments self) - 1.
Proof.
  intros Hn. unfold clamp_segment.
  destruct (Z.of_nat ind - 1 <? 0) eqn:H0.
  - destruct (0 >? Z.of_nat (n_segments self) - 1) eqn:H1;
      destruct (ascending self); simpl negb; cbv iota;
      rewrite ?Z.gtb_ltb in H1;
      try apply Z.ltb_lt in H1; try apply Z.ltb_ge in H1; lia.
  - apply Z.ltb_ge in H0.
    destruct (Z.of_nat ind - 1 >? Z.of_nat (n_segments self) - 1) eqn:H1;
      destruct (ascending self); simpl negb; cbv iota;
      rewrite ?Z.gtb_ltb in H1;
      try apply Z.ltb_lt in H1; try apply Z.ltb_ge in H1; lia.
Qed.

(** The masked assignments of the batched path and the [min]/[max] of the
    scalar path compute the same segment. *)
Lemma clamp_segment_select (self : ContinuousExt) (t : time) :
  clamp_segment self (Np.searchsorted (ascending self) (ts_sorted self) t)
  = select_segment self t.
Proof.
  unfold clamp_segment, select_segment.
  generalize (Z.of_nat (Np.searchsorted (ascending self) (ts_sorted self) t)).
  generalize (Z.of_nat (n_segments self)).
  intros n ind.
  destruct (ind - 1 <? 0) eqn:H0.
  - apply Z.ltb_lt in H0.
    destruct (0 >? n - 1) eqn:H1; rewrite Z.gtb_ltb in H1;
      [apply Z.ltb_lt in H1 | apply Z.ltb_ge in H1];
      destruct (ascending self); simpl negb; cbv iota; lia.
  - apply Z.ltb_ge in H0.
    destruct (ind - 1 >? n - 1) eqn:H1; rewrite Z.gtb_ltb in H1;
      [apply Z.ltb_lt in H1 | apply Z.ltb_ge in H1];
      destruct (ascending self); simpl negb; cbv iota; lia.
Qed.

Lemma segments_of_select (self : ContinuousExt) (l : list time) :
  segments_of self l = map (select_segment self) l.
Proof.
  unfold segments_of. apply map_ext. intros t. apply clamp_segment_select.
Qed.

Lemma index_in_range (self : ContinuousExt) (s : Z) :
  length (interpolants self) = n_segments self ->
  0 <= s <= Z.of_nat (n_segments self) - 1 ->
  exists obj, Py.index (interpolants self) s = Ok obj
              /\ nth_error (interpolants self) (Z.to_nat s) = Some obj.
Proof.
  intros Hlen Hs.
  destruct (nth_error (interpolants self) (Z.to_nat s)) as [obj|] eqn:Hobj.
  - exists obj. split; [|reflexivity].
    replace s with (Z.of_nat (Z.to_nat s)) by lia.
    rewrite index_nat. unfold Py.getitem. rewrite Hobj. reflexivity.
  - apply nth_error_None in Hobj. lia.
Qed.

(** C10 (as amended).  On an instance as constructed, without
    discontinuities and with at least one segment, every query time, inside
    or outside [[t_min, t_max]], gets a segment index in
    [[0, n_segments - 1]]; the look-up in [interpolants] succeeds, so
    [_call_single] raises no [IndexError]; a time below [t_min] or above
    [t_max] is evaluated with the first or the last interpolant; and every
    index the batched path computes lies in the same range. *)
Theorem C10_segment_index_clamped (self : ContinuousExt) :
  wf self ->
  (1 <= n_segments self)%nat ->
  repeated_t self = false ->
  (forall t : time,
      0 <= select_segment self t <= Z.of_nat (n_segments self) - 1
      /\ (exists obj,
            Py.index (interpolants self) (select_segment self t) = Ok obj
            /\ _call_single self t = eval_segment (select_segment self t) obj t)
      /\ _call_single self t <> Raise IndexError
      /\ (t < t_min self ->
          select_segment self t =
            if ascending self then 0 else Z.of_nat (n_segments self) - 1)
      /\ (t_max self < t ->
          select_segment self t =
            if ascending self then Z.of_nat (n_segments self) - 1 else 0))
  /\ (forall t_sorted : list time,
        Forall (fun s => 0 <= s <= Z.of_nat (n_segments self) - 1
                         /\ exists obj, Py.index (interpolants self) s = Ok obj)
               (segments_of self t_sorted)).
Proof.
  intros Hwf Hn Hrep.
  pose proof (wf_len_interp self Hwf) as Hlen.
  split.
  - intros t.
    pose proof (select_segment_range self t Hn) as Hrange.
    destruct (index_in_range self _ Hlen Hrange) as (obj & Hobj & _).
    assert (Hcall : _call_single self t
                    = eval_segment (select_segment self t) obj t).
    { rewrite call_single_regular by (rewrite Hrep; reflexivity).
      rewrite Hobj. reflexivity. }
    split; [exact Hrange|]. split; [eauto|]. split.
    { rewrite Hcall. unfold eval_segment.
      destruct (select_segment self t =? 0); destruct obj; discriminate. }
    destruct (wf_sorted_view self Hwf) as (Hsorted & Hmin & Hmax).
    assert (Hne : ts_sorted self <> []).
    { pose proof (wf_len_ts self Hwf) as Hl.
      pose proof (wf_ts_sorted self Hwf) as Hs. rewrite Hs.
      destruct (ascending self); [|rewrite <- length_zero_iff_nil, length_rev];
        try rewrite <- length_zero_iff_nil; lia. }
    assert (Hlen_sorted : length (ts_sorted self) = S (n_segments self)).
    { pose proof (wf_len_ts self Hwf) as Hl.
      rewrite (wf_ts_sorted self Hwf).
      destruct (ascending self); [|rewrite length_rev]; exact Hl. }
    split; intros Ht; unfold select_segment.
    + rewrite Hmin in Ht.
      pose proof (sorted_above_hd _ t Hsorted Hne Ht) as Hall.
      destruct (ascending self); simpl Np.searchsorted; simpl negb; cbv iota.
      * rewrite searchsorted_left_above; [lia|].
        eapply Forall_impl; [|exact Hall]. simpl. intros; lia.
      * rewrite searchsorted_right_above by exact Hall. lia.
    + rewrite Hmax in Ht.
      pose proof (sorted_below_last _ t Hsorted Hne Ht) as Hall.
      destruct (ascending self); simpl Np.searchsorted; simpl negb; cbv iota.
      * rewrite searchsorted_left_below by exact Hall. lia.
      * rewrite searchsorted_right_below; [lia|].
        eapply Forall_impl; [|exact Hall]. simpl. intros; lia.
  - intros t_sorted. unfold segments_of. apply Forall_map.
    apply Forall_forall. intros t _.
    pose proof (clamp_segment_range self
                  (Np.searchsorted (ascending self) (ts_sorted self) t) Hn)
      as Hrange.
    split; [exact Hrange|].
    destruct (index_in_range self _ Hlen Hrange) as (obj & Hobj & _). eauto.
Qed.

Lemma C10_segment_index_clamped_witness :
  0 <= select_segment up_instance (sec 100) <= 1
  /\ _call_single up_instance (sec 100) <> Raise IndexError
  /\ select_segment up_instance (sec (-3)) = 0.
Proof.
  destruct (C10_segment_index_clamped up_instance) as [Hscalar _].
  - exact up_instance_wf.
  - simpl. lia.
  - reflexivity.
  - destruct (Hscalar (sec 100)) as (Hrange & _ & Hno & _).
    destruct (Hscalar (sec (-3))) as (_ & _ & _ & Hbelow & _).
    split; [exact Hrange|]. split; [exact Hno|].
    apply Hbelow. reflexivity.
Defined.

(** C10, as stated, fails on an instance with no segment: a single
    boundary time and an empty interpolant list are accepted by the
    constructor, the clamp then yields [-1], and the look-up raises. *)
Lemma C10_counterexample :
  exists self,
    __init__ [sec 20] [] [[5]] = Ok self
    /\ repeated_t self = false
    /\ select_segment self (sec 28) = -1
    /\ _call_single self (sec 28) = Raise IndexError.
Proof.
  eexists. split; [reflexivity|]. repeat split.
Qed.

(** ** C4: discontinuities *)

Lemma mapM_nth {A B} (f : A -> result B) (l : list A) (r : list B) :
  mapM f l = Ok r ->
  forall k a, nth_error l k = Some a ->
    exists b, f a = Ok b /\ nth_error r k = Some b.
Proof.
  revert r. induction l as [|x l IH]; intros r Hr k a Hk;
    [destruct k; discriminate|].
  simpl in Hr.
  apply bind_Ok in Hr as (b & Hb & Hr).
  apply bind_Ok in Hr as (bs & Hbs & Hr). injection Hr as <-.
  destruct k as [|k]; simpl in Hk.
  - injection Hk as <-. exists b. auto.
  - apply (IH bs Hbs k a Hk).
Qed.

Lemma mapM_length {A B} (f : A -> result B) (l : list A) (r : list B) :
  mapM f l = Ok r -> length r = length l.
Proof.
  revert r. induction l as [|x l IH]; intros r Hr; simpl in Hr.
  - injection Hr as <-. reflexivity.
  - apply bind_Ok in Hr as (b & Hb & Hr).
    apply bind_Ok in Hr as (bs & Hbs & Hr). injection Hr as <-.
    simpl. now rewrite (IH bs Hbs).
Qed.

(** What the constructor records for a flagged gap. *)
Lemma recorded_discontinuity
    (ts0 : list time) (interps : list interp) (ys0 : list vec)
    (self : ContinuousExt) (i : nat) :
  __init__ ts0 interps ys0 = Ok self ->
  (S i < length ts0)%nat ->
  nth (S i) ts0 0 - nth i ts0 0 < EPS ->
  repeated_t self = true
  /\ exists k,
      nth_error (idxs self) k = Some (S i)
      /\ nth_error (t_discont self) k = Some (nth (S i) ts0 0)
      /\ nth_error (y_discont self) k = Some (nth (S i) ys0 []).
Proof.
  intros Hinit Hi Hgap.
  apply init_Ok in Hinit as (_ & _ & Hf).
  pose proof (diff_nth ts0 i Hi) as Hd.
  unfold filter_discont in Hf.
  rewrite (argwhere_any _ _ _ Hd Hgap) in Hf.
  apply bind_Ok in Hf as (td & Htd & Hf).
  apply bind_Ok in Hf as (yd & Hyd & Hf).
  injection Hf as Hrep Hix Htd' Hyd' _ _.
  split; [auto|].
  pose proof (argwhere_In _ 0 i _ Hd Hgap) as Hin. simpl in Hin.
  rewrite Hix in Hin. apply In_nth_error in Hin as [k Hk].
  exists k. split; [exact Hk|].
  rewrite <- Hix in Hk. unfold Py.gather in Htd, Hyd.
  destruct (mapM_nth _ _ _ Htd k _ Hk) as (t & Ht & Htk).
  destruct (mapM_nth _ _ _ Hyd k _ Hk) as (y & Hy & Hyk).
  apply getitem_Ok_inv in Ht, Hy.
  rewrite <- Htd', <- Hyd', Htk, Hyk.
  split; f_equal; symmetry; apply nth_error_nth; assumption.
Qed.




(** On a descending instance the table is searched with [side='right']
    as it stands, which lands one past the recorded entry. *)
Lemma descending_jump_lookup_past_entry :
  t_discont down_instance = [sec 0]
  /\ _call_single down_instance (sec 0) = Raise IndexError.
Proof. split; reflexivity. Qed.

(** ** C5: the duplicate-marker check *)

(** C5 (as amended).  On an instance that holds discontinuities, a batched
    query whose adjacent differences [t[j+1] - t[j]] are all at least [EPS]
    raises [ValueError] and returns no result. *)
Theorem C5_unmarked_query_rejected (self : ContinuousExt) (t : list time) :
  repeated_t self = true ->
  Forall (fun d => EPS <= d) (Np.diff t) ->
  call_batched self t = Raise ValueError
  /\ __call__ self (Array t) = Raise ValueError.
Proof.
  intros Hrep Hgap.
  assert (H : call_batched self t = Raise ValueError).
  { unfold call_batched, prepare_times.
    rewrite Hrep, (no_flag t Hgap). reflexivity. }
  split; [exact H|]. simpl. rewrite H. reflexivity.
Qed.

Lemma C5_unmarked_query_rejected_witness :
  call_batched jump_instance [sec 2; sec 6] = Raise ValueError
  /\ __call__ jump_instance (Array [sec 2; sec 6]) = Raise ValueError.
Proof.
  apply C5_unmarked_query_rejected.
  - reflexivity.
  - repeat constructor; vm_compute; discriminate.
Defined.

(** C5, as stated, fails: the check only asks for some adjacent pair with
    [t[j+1] - t[j] < EPS].  The array [0.5, 0.5, 1.5] duplicates 0.5, not
    the jump time 1.0, and is evaluated; the jump value is appended after
    the last column. *)
Lemma C5_counterexample :
  ~ (forall (self : ContinuousExt) (t : list time),
        wf self ->
        repeated_t self = true ->
        ~ marks_jump self t ->
        call_batched self t = Raise ValueError).
Proof.
  intros H.
  specialize (H jump_instance [sec 2; sec 2; sec 6] jump_instance_wf eq_refl).
  assert (Hcall : call_batched jump_instance [sec 2; sec 2; sec 6]
                  = Ok [[5]; [sec 6]; [8]]) by reflexivity.
  rewrite Hcall in H. clear Hcall.
  assert (Hok : Ok [[5]; [sec 6]; [8]] <> @Raise (list (list Z)) ValueError)
    by discriminate.
  apply Hok, H. clear H Hok.
  intros (j & td & Hj & Hpair & Htd & Hnear).
  simpl in Htd. destruct Htd as [<-|[]].
  simpl in Hj.
  destruct j as [|[|j]]; [| |lia];
    unfold near_duplicate in *; vm_compute in Hnear, Hpair; discriminate.
Qed.

(** The same check lets through an array with no near-duplicate at all as
    soon as it has a decreasing step: [1.5, 0.5] is accepted, its second
    entry is deleted as a marker, and the jump value is appended. *)
Lemma marker_check_accepts_decreasing_step :
  ~ marks_jump jump_instance [sec 6; sec 2]
  /\ ~ near_duplicate (sec 6) (sec 2)
  /\ call_batched jump_instance [sec 6; sec 2] = Ok [[sec 6]; [8]].
Proof.
  split; [|split; [|reflexivity]].
  - intros (j & td & Hj & Hpair & _).
    simpl in Hj. destruct j as [|j]; [|lia].
    unfold near_duplicate in Hpair. vm_compute in Hpair. discriminate.
  - unfold near_duplicate. vm_compute. discriminate.
Qed.

(** ** C8: [reorganize] *)

Lemma searchsorted_left_mono (l : list Z) (v w : Z) :
  v <= w -> (Np.searchsorted_left l v <= Np.searchsorted_left l w)%nat.
Proof.
  intros Hvw. induction l as [|x l IH]; simpl; [lia|].
  destruct (Z.ltb_spec x v); [|lia].
  replace (x <? w) with true by (symmetry; apply Z.ltb_lt; lia). lia.
Qed.

Lemma index_firstn {A} (l : list A) (k : nat) (s : Z) :
  0 <= s < Z.of_nat k -> Py.index (firstn k l) s = Py.index l s.
Proof.
  intros Hs.
  replace s with (Z.of_nat (Z.to_nat s)) by lia.
  rewrite !index_nat. unfold Py.getitem.
  rewrite nth_error_firstn.
  replace (Z.to_nat s <? k)%nat with true; [reflexivity|].
  symmetry. apply Nat.ltb_lt. lia.
Qed.

Lemma groupby_keys (l : list Z) (k : Z) (c : nat) :
  In (k, c) (Py.groupby l) -> In k l.
Proof.
  revert k c. induction l as [|x l IH]; intros k c Hin; [contradiction|].
  simpl in Hin.
  destruct (Py.groupby l) as [|[k0 c0] gs] eqn:Hg.
  - destruct Hin as [Hin|[]]. injection Hin as <- _. now left.
  - destruct (Z.eqb_spec x k0) as [->|Hne].
    + destruct Hin as [Hin|Hin].
      * injection Hin as <- _. now left.
      * right. apply (IH k c). now right.
    + destruct Hin as [Hin|Hin].
      * injection Hin as <- _. now left.
      * right. apply (IH k c). exact Hin.
Qed.

Lemma drop_indices_In {A} (ix : list nat) (l : list A) (x : A) :
  forall from, In x (Py.drop_indices from ix l) -> In x l.
Proof.
  induction l as [|y l IH]; intros from Hin; [contradiction|].
  simpl in Hin. destruct (existsb (Nat.eqb from) ix).
  - right. eapply IH. exact Hin.
  - destruct Hin as [->|Hin]; [now left | right; eapply IH; exact Hin].
Qed.

Lemma gather_In {A} (l : list A) (ix : list nat) (r : list A) (x : A) :
  Py.gather l ix = Ok r -> In x r -> In x l.
Proof.
  unfold Py.gather. intros Hr Hin.
  apply In_nth_error in Hin as [k Hk].
  assert (Hlen : (k < length ix)%nat).
  { rewrite <- (mapM_length _ _ _ Hr). apply nth_error_Some.
    rewrite Hk. discriminate. }
  destruct (nth_error ix k) as [j|] eqn:Hj;
    [|apply nth_error_None in Hj; lia].
  destruct (mapM_nth _ _ _ Hr k j Hj) as (b & Hb & Hkb).
  rewrite Hk in Hkb. injection Hkb as <-.
  apply getitem_Ok_inv in Hb. eapply nth_error_In. exact Hb.
Qed.

(** The run loop reads [interpolants] only at the segment indices of its
    runs. *)
Lemma eval_groups_ext (self self' : ContinuousExt) (t t_sorted : list time)
    (groups : list (Z * nat)) :
  ys self' = ys self ->
  (forall k c, In (k, c) groups ->
               Py.index (interpolants self') k = Py.index (interpolants self) k) ->
  forall group_start,
    eval_groups self' t t_sorted group_start groups
    = eval_groups self t t_sorted group_start groups.
Proof.
  intros Hys. induction groups as [|[k c] groups IH]; intros Hidx gs;
    [reflexivity|].
  simpl. unfold history_block.
  rewrite (Hidx k c) by now left.
  rewrite Hys, IH; [reflexivity|].
  intros k' c' Hin. apply (Hidx k' c'). now right.
Qed.

Lemma reinsert_ext (self self' : ContinuousExt) :
  t_discont self' = t_discont self -> y_discont self' = y_discont self ->
  forall ks t_tmp m, reinsert self' ks t_tmp m = reinsert self ks t_tmp m.
Proof.
  intros Ht Hy. induction ks as [|k ks IH]; intros t_tmp m; [reflexivity|].
  simpl. rewrite Ht, Hy.
  destruct (Py.getitem (t_discont self) k) as [td|]; [|reflexivity]. simpl.
  destruct (Np.insert t_tmp _ td) as [t_tmp'|]; [|reflexivity]. simpl.
  destruct (Py.getitem (y_discont self) k) as [yd|]; [|reflexivity]. simpl.
  destruct (set_column (rows m) yd) as [col|]; [|reflexivity]. simpl.
  destruct (Np.insert m _ col) as [m'|]; [|reflexivity]. simpl.
  apply IH.
Qed.

Lemma prepare_times_In (self : ContinuousExt) (t t1 : list time) (x : time) :
  prepare_times self t = Ok t1 -> In x t1 -> In x t.
Proof.
  unfold prepare_times.
  destruct (repeated_t self); [|intros H; injection H as <-; auto].
  destruct (Np.any_lt_EPS (Np.diff t)); simpl; [|discriminate].
  intros H; injection H as <-. apply drop_indices_In.
Qed.

(** A time at or before [t0_new] selects a segment kept by
    [reorganize(t0_new)]. *)
Lemma early_lookup (self : ContinuousExt) (t0_new t : time) :
  wf self -> ascending self = true -> t <= t0_new ->
  Py.index (interpolants (reorganize self t0_new)) (select_segment self t)
  = Py.index (interpolants self) (select_segment self t).
Proof.
  intros Hwf Hasc Ht.
  pose proof (wf_len_interp self Hwf) as Hlen.
  pose proof (wf_ts_sorted self Hwf) as Hsorted. rewrite Hasc in Hsorted.
  change (interpolants (reorganize self t0_new))
    with (firstn (S (Np.searchsorted_left (ts self) t0_new))
            (interpolants self)).
  destruct (n_segments self) as [|n] eqn:Hn.
  - apply length_zero_iff_nil in Hlen. rewrite Hlen, ?firstn_nil. reflexivity.
  - apply index_firstn.
    pose proof (searchsorted_left_mono (ts self) t t0_new Ht) as Hmono.
    unfold select_segment. rewrite Hasc, Hsorted, Hn.
    simpl Np.searchsorted. simpl negb. cbv iota. lia.
Qed.

Lemma call_single_reorganize (self : ContinuousExt) (t0_new t : time) :
  wf self -> ascending self = true -> t <= t0_new ->
  _call_single (reorganize self t0_new) t = _call_single self t.
Proof.
  intros Hwf Hasc Ht.
  pose proof (early_lookup self t0_new t Hwf Hasc Ht) as Hidx.
  unfold _call_single.
  change (repeated_t (reorganize self t0_new)) with (repeated_t self).
  change (near_discont (reorganize self t0_new) t) with (near_discont self t).
  change (select_segment (reorganize self t0_new) t)
    with (select_segment self t).
  rewrite Hidx. reflexivity.
Qed.

Lemma call_batched_reorganize (self : ContinuousExt) (t0_new : time)
    (t : list time) :
  wf self -> ascending self = true ->
  Forall (fun x => x <= t0_new) t ->
  call_batched (reorganize self t0_new) t = call_batched self t.
Proof.
  intros Hwf Hasc Hall. unfold call_batched.
  change (prepare_times (reorganize self t0_new) t)
    with (prepare_times self t).
  destruct (prepare_times self t) as [t1|e] eqn:Hprep; [|reflexivity].
  cbn [bind].
  destruct (Np.take t1 (Np.argsort t1)) as [t_sorted|e] eqn:Hsort;
    [|reflexivity].
  cbn [bind].
  change (segments_of (reorganize self t0_new) t_sorted)
    with (segments_of self t_sorted).
  rewrite (eval_groups_ext self (reorganize self t0_new)).
  - destruct (eval_groups self t1 t_sorted 0
                (Py.groupby (segments_of self t_sorted))) as [blocks|e];
      [|reflexivity].
    cbn [bind]. destruct (hstack blocks) as [m|e]; [|reflexivity].
    cbn [bind]. destruct (Np.take m _) as [m'|e]; [|reflexivity].
    cbn [bind].
    change (repeated_t (reorganize self t0_new)) with (repeated_t self).
    destruct (repeated_t self); [|reflexivity].
    apply reinsert_ext; reflexivity.
  - reflexivity.
  - intros k c Hin. apply groupby_keys in Hin.
    rewrite segments_of_select in Hin.
    apply in_map_iff in Hin as (x & <- & Hx).
    apply early_lookup; auto.
    rewrite Forall_forall in Hall. apply Hall.
    eapply prepare_times_In; [exact Hprep|].
    eapply gather_In; [exact Hsort | exact Hx].
Qed.



(** [reorganize] leaves [n_segments] and [ts_sorted] as they were, so a
    later time still selects a segment that is no longer stored. *)
Lemma later_query_after_reorganize :
  _call_single up_instance (sec 7) = Ok [sec 7]
  /\ _call_single (reorganize up_instance (sec 0)) (sec 7) = Raise IndexError.
Proof. split; reflexivity. Qed.

(** ** C1: batched against scalar evaluation *)

Lemma mapM_pointwise {A B} (f : A -> result B) (q : A -> B) (l : list A) :
  (forall x, In x l -> f x = Ok (q x)) -> mapM f l = Ok (map q l).
Proof.
  induction l as [|x l IH]; intros H; [reflexivity|].
  simpl. rewrite (H x) by now left. simpl.
  rewrite IH by (intros y Hy; apply H; now right). reflexivity.
Qed.

Lemma insert_key_perm (a : list Z) (i : nat) (order : list nat) :
  Permutation (Np.insert_key a i order) (i :: order).
Proof.
  induction order as [|j order IH]; simpl; [reflexivity|].
  destruct (nth i a 0 <=? nth j a 0); [reflexivity|].
  rewrite IH. apply perm_swap.
Qed.

(** [np.argsort] returns a permutation of the positions. *)
Lemma argsort_perm (a : list Z) :
  Permutation (Np.argsort a) (seq 0 (length a)).
Proof.
  unfold Np.argsort. induction (seq 0 (length a)) as [|i l IH];
    simpl; [reflexivity|].
  rewrite insert_key_perm. now constructor.
Qed.

Lemma position_nth (order : list nat) (j : nat) :
  In j order -> nth_error order (Np.position j order) = Some j.
Proof.
  induction order as [|i order IH]; intros Hin; [contradiction|].
  simpl. destruct (Nat.eqb_spec i j) as [->|Hne]; [reflexivity|].
  simpl. apply IH. destruct Hin; [contradiction | assumption].
Qed.

Lemma map_nth_seq (l : list Z) :
  map (fun i => nth i l 0) (seq 0 (length l)) = l.
Proof.
  induction l as [|x l IH]; [reflexivity|].
  simpl. f_equal. rewrite <- seq_shift, map_map. exact IH.
Qed.

(** Sorting, then undoing the sort, on columns computed pointwise. *)
Lemma take_argsort (t : list time) :
  Np.take t (Np.argsort t) = Ok (map (fun i => nth i t 0) (Np.argsort t)).
Proof.
  unfold Np.take, Py.gather. apply mapM_pointwise. intros i Hi.
  apply getitem_Ok.
  apply (Permutation_in _ (argsort_perm t)) in Hi.
  apply in_seq in Hi. lia.
Qed.

Lemma take_inverse_perm {B} (h : nat -> B) (order : list nat) (n : nat) :
  Permutation order (seq 0 n) ->
  Np.take (map h order) (Np.inverse_perm order) = Ok (map h (seq 0 n)).
Proof.
  intros Hperm. unfold Np.take, Py.gather, Np.inverse_perm.
  rewrite (Permutation_length Hperm), length_seq.
  assert (H : forall l,
             (forall j, In j l -> In j order) ->
             mapM (Py.getitem (map h order))
               (map (fun j => Np.position j order) l) = Ok (map h l)).
  { induction l as [|j l IH]; intros Hl; [reflexivity|].
    simpl. unfold Py.getitem at 1.
    rewrite nth_error_map, (position_nth order j) by (apply Hl; now left).
    simpl. rewrite IH by (intros k Hk; apply Hl; now right). reflexivity. }
  apply H. intros j Hj. apply (Permutation_in _ (Permutation_sym Hperm) Hj).
Qed.

Lemma slice_app {A} (pre l : list A) (c : nat) :
  Py.slice (length pre) (length pre + c) (pre ++ l) = firstn c l.
Proof.
  unfold Py.slice.
  replace (length pre + c - length pre)%nat with c by lia.
  rewrite skipn_app, skipn_all, Nat.sub_diag. reflexivity.
Qed.

Lemma groupby_nil (l : list Z) : Py.groupby l = [] -> l = [].
Proof.
  destruct l as [|x l]; [reflexivity|]. simpl.
  destruct (Py.groupby l) as [|[k c] gs]; [discriminate|].
  destruct (x =? k); discriminate.
Qed.

Lemma slice_skipn {A} (full l : list A) (a c : nat) :
  skipn a full = l -> Py.slice a (a + c) full = firstn c l.
Proof.
  intros <-. unfold Py.slice. f_equal. lia.
Qed.

Lemma eval_groups_cons (self : ContinuousExt) (t t_sorted : list time)
    (start : nat) (segment : Z) (len : nat) (groups : list (Z * nat)) :
  eval_groups self t t_sorted start ((segment, len) :: groups)
  = (y <- (if segment =? 0 then
             history_block self segment t
               (length (Py.slice start (start + len) t_sorted))
           else
             obj <- Py.index (interpolants self) segment ;;
             call_array obj (Py.slice start (start + len) t_sorted)) ;;
     rest <- eval_groups self t t_sorted (start + len) groups ;;
     Ok (y :: rest)).
Proof. reflexivity. Qed.

Section OffHistory.

Variable self : ContinuousExt.
Hypothesis no_discont : repeated_t self = false.

(** Off the history segment the scalar path calls the selected object,
    which then answers arrays column by column. *)
Lemma off_history_object (x : time) :
  off_history self x ->
  exists obj f,
    Py.index (interpolants self) (select_segment self x) = Ok obj
    /\ (forall l, call_array obj l = Ok (map f l))
    /\ (forall x', call_scalar obj x' = Ok (f x'))
    /\ scalar_column self x = f x.
Proof.
  intros [Hseg [y Hy]]. unfold scalar_column. rewrite Hy.
  rewrite call_single_regular in Hy by (rewrite no_discont; reflexivity).
  apply bind_Ok in Hy as (obj & Hobj & Hy).
  unfold eval_segment in Hy.
  destruct (Z.eqb_spec (select_segment self x) 0) as [|_]; [contradiction|].
  destruct obj as [fs|f|v|f]; simpl in Hy; try discriminate.
  - exists (HistFun f), f. injection Hy as <-. auto.
  - exists (Dense f), f. injection Hy as <-. auto.
Qed.

Lemma same_object_column (x : time) (obj : interp) (f : time -> list Z) :
  off_history self x ->
  Py.index (interpolants self) (select_segment self x) = Ok obj ->
  (forall x', call_scalar obj x' = Ok (f x')) ->
  scalar_column self x = f x.
Proof.
  intros Hx Hobj Hf.
  destruct (off_history_object x Hx) as (obj' & f' & Hobj' & _ & Hf' & ->).
  rewrite Hobj in Hobj'. injection Hobj' as <-.
  specialize (Hf x). rewrite Hf' in Hf. now injection Hf.
Qed.

(** The run loop, off the history segment, yields the scalar columns of
    the sorted times in order, in non-empty blocks. *)
Lemma eval_groups_off_history (t0 full : list time) :
  forall (l : list time) (start : nat),
    skipn start full = l ->
    Forall (off_history self) l ->
    exists blocks,
      eval_groups self t0 full start
        (Py.groupby (map (select_segment self) l)) = Ok blocks
      /\ concat blocks = map (scalar_column self) l
      /\ Forall (fun b => b <> []) blocks.
Proof.
  induction l as [|x l IH]; intros start Hskip Hall.
  - exists []. simpl. auto.
  - inversion Hall as [|? ? Hx Hl]; subst.
    destruct (off_history_object x Hx) as (obj & f & Hobj & Harr & Hsc & Hcol).
    assert (Hseg : (select_segment self x =? 0) = false).
    { apply Z.eqb_neq. apply Hx. }
    assert (Hskip' : skipn (S start) full = l).
    { change (S start) with (1 + start)%nat.
      rewrite <- skipn_skipn, Hskip. reflexivity. }
    destruct (IH (S start) Hskip' Hl) as (blocks & Hblocks & Hcat & Hne).
    simpl map. cbn [Py.groupby].
    destruct (Py.groupby (map (select_segment self) l))
      as [|[k c] gs] eqn:Hg.
    + apply groupby_nil, map_eq_nil in Hg. subst l.
      exists [[f x]]. rewrite eval_groups_cons, Hseg, Hobj. cbn [bind].
      rewrite Harr, (slice_skipn full [x] start 1 Hskip). simpl.
      rewrite Hcol. repeat split; repeat constructor; discriminate.
    + destruct (Z.eqb_spec (select_segment self x) k) as [Hk|Hk].
      * subst k. rewrite eval_groups_cons in Hblocks |- *.
        rewrite Hseg, Hobj in Hblocks |- *. cbn [bind] in Hblocks |- *.
        rewrite Harr in Hblocks |- *. cbn [bind] in Hblocks |- *.
        rewrite (slice_skipn full l (S start) c Hskip') in Hblocks.
        rewrite (slice_skipn full (x :: l) start (S c) Hskip).
        replace (start + S c)%nat with (S start + c)%nat by lia.
        apply bind_Ok in Hblocks as (rest & Hrest & Hblocks).
        injection Hblocks as <-. rewrite Hrest. cbn [bind].
        exists (map f (firstn (S c) (x :: l)) :: rest).
        split; [reflexivity|]. split.
        -- simpl in Hcat |- *. rewrite Hcat, Hcol. reflexivity.
        -- inversion Hne; subst. constructor; [discriminate | assumption].
      * rewrite eval_groups_cons, Hseg, Hobj. cbn [bind].
        rewrite Harr. cbn [bind].
        rewrite (slice_skipn full (x :: l) start 1 Hskip).
        replace (start + 1)%nat with (S start) by lia.
        rewrite Hblocks. cbn [bind].
        exists ([f x] :: blocks).
        split; [reflexivity|]. split.
        -- simpl. rewrite Hcat, Hcol. reflexivity.
        -- constructor; [discriminate | assumption].
Qed.

End OffHistory.

Lemma hstack_uniform (blocks : list (list (list Z))) (d : nat) :
  blocks <> [] ->
  Forall (fun b => b <> []) blocks ->
  Forall (fun c => length c = d) (concat blocks) ->
  hstack blocks = Ok (concat blocks).
Proof.
  intros Hne Hblocks Hcols.
  destruct blocks as [|b bs]; [congruence|].
  inversion Hblocks as [|? ? Hb _]; subst.
  destruct b as [|c b]; [congruence|].
  unfold hstack.
  replace (forallb _ (concat ((c :: b) :: bs))) with true; [reflexivity|].
  symmetry. apply forallb_forall. intros c' Hc'.
  rewrite Forall_forall in Hcols. apply Nat.eqb_eq.
  rewrite (Hcols c' Hc'). simpl rows. symmetry. apply Hcols. now left.
Qed.

Lemma scalar_column_Ok (self : ContinuousExt) (x : time) :
  off_history self x -> _call_single self x = Ok (scalar_column self x).
Proof.
  intros [_ [y Hy]]. unfold scalar_column. now rewrite Hy.
Qed.

(** C1 (as amended).  On an instance without discontinuities, for every
    non-empty array of query times, in any order, none of which selects
    the history segment (segment 0) and whose scalar results all have one
    common length, the batched call returns a matrix with one column per
    input time, in input order, column [j] being the result of
    [_call_single(t[j])]. *)
Theorem C1_batched_matches_scalar_off_history
    (self : ContinuousExt) (t : list time) (d : nat) :
  repeated_t self = false ->
  t <> [] ->
  Forall (off_history self) t ->
  Forall (fun x => length (scalar_column self x) = d) t ->
  exists m,
    call_batched self t = Ok m
    /\ length m = length t
    /\ forall j x, nth_error t j = Some x ->
         exists y, nth_error m j = Some y /\ _call_single self x = Ok y.
Proof.
  intros Hrep Hne Hoff Hdim.
  exists (map (scalar_column self) t).
  split; [|split].
  - unfold call_batched, prepare_times. rewrite Hrep. cbn [bind].
    rewrite take_argsort. cbn [bind].
    set (t_sorted := map (fun i => nth i t 0) (Np.argsort t)).
    assert (Hin : forall x, In x t_sorted -> In x t).
    { intros x Hx. apply in_map_iff in Hx as (i & <- & Hi).
      apply nth_In.
      apply (Permutation_in _ (argsort_perm t)) in Hi.
      apply in_seq in Hi. lia. }
    assert (Hoff' : Forall (off_history self) t_sorted).
    { rewrite Forall_forall in *. auto. }
    rewrite segments_of_select.
    destruct (eval_groups_off_history self Hrep t t_sorted t_sorted 0
                eq_refl Hoff') as (blocks & Hblocks & Hcat & Hnonempty).
    rewrite Hblocks. cbn [bind].
    rewrite (hstack_uniform blocks d); [| |exact Hnonempty|].
    + cbn [bind]. rewrite Hcat. unfold t_sorted. rewrite map_map.
      rewrite (take_inverse_perm _ _ (length t) (argsort_perm t)).
      cbn [bind].
      rewrite <- (map_map (fun i => nth i t 0) (scalar_column self)).
      rewrite map_nth_seq. reflexivity.
    + intros ->. simpl in Hcat. symmetry in Hcat.
      apply map_eq_nil in Hcat. unfold t_sorted in Hcat.
      apply map_eq_nil in Hcat.
      pose proof (Permutation_length (argsort_perm t)) as Hlen.
      rewrite Hcat, length_seq in Hlen. simpl in Hlen.
      symmetry in Hlen. apply length_zero_iff_nil in Hlen. contradiction.
    + rewrite Hcat. apply Forall_map.
      rewrite Forall_forall in *. auto.
  - apply length_map.
  - intros j x Hj. exists (scalar_column self x). split.
    + rewrite nth_error_map, Hj. reflexivity.
    + apply scalar_column_Ok.
      rewrite Forall_forall in Hoff. apply Hoff.
      eapply nth_error_In. exact Hj.
Qed.

Lemma C1_batched_matches_scalar_off_history_witness :
  exists m,
    call_batched up_instance [sec 7; sec 5; sec 100] = Ok m
    /\ length m = 3%nat
    /\ forall j x, nth_error [sec 7; sec 5; sec 100] j = Some x ->
         exists y, nth_error m j = Some y /\ _call_single up_instance x = Ok y.
Proof.
  apply (C1_batched_matches_scalar_off_history up_instance
           [sec 7; sec 5; sec 100] 1).
  - reflexivity.
  - discriminate.
  - repeat constructor; try (vm_compute; discriminate);
      eexists; vm_compute; reflexivity.
  - repeat constructor.
Defined.

(** C1, as stated, fails on an instance that holds a discontinuity: the
    query [0.5, 1, 1, 1.5] marks the jump at 1 as required, and the batched
    call answers the first of the two marks with the pre-jump value [[5]]
    where the scalar path returns the post-jump value [[8]]. *)
Lemma C1_counterexample :
  ~ (forall (self : ContinuousExt) (t : list time) (m : list (list Z)),
        wf self ->
        call_batched self t = Ok m ->
        forall j x, nth_error t j = Some x ->
          exists y, nth_error m j = Some y /\ _call_single self x = Ok y).
Proof.
  intros H.
  destruct (H jump_instance [sec 2; sec 4; sec 4; sec 6]
              [[5]; [5]; [8]; [sec 6]] jump_instance_wf eq_refl
              1%nat (sec 4) eq_refl) as (y & Hy & Hcall).
  injection Hy as <-. vm_compute in Hcall. discriminate.
Qed.

(** On the history segment the batched path reads [t[k]], the [k]-th entry
    of the unsorted query, where the sorted time of the run is meant: for
    the query [1.5, 0.5] the second column is the history at 1.5, not at
    0.5 as the scalar path gives. *)
Lemma batched_history_reads_unsorted_times :
  wf hist_instance
  /\ repeated_t hist_instance = false
  /\ call_batched hist_instance [sec 6; sec 2] = Ok [[sec 6]; [sec 6]]
  /\ _call_single hist_instance (sec 6) = Ok [sec 6]
  /\ _call_single hist_instance (sec 2) = Ok [sec 2].
Proof. split; [exact hist_instance_wf | repeat split]. Qed.

(** ** C9: the initial step *)

Section InitialStep.

Local Open Scope R_scope.

Variable History : Type.

Lemma norm_singleton (a : R) : norm [a] = Rabs a.
Proof.
  unfold norm, norm2. simpl.
  rewrite sqrt_1, Rplus_0_r, Rdiv_1_r.
  apply sqrt_Rsqr_abs.
Qed.


End InitialStep.

(** * Further properties *)

(** ** The discontinuity filter *)

Lemma drop_indices_nil {A} (l : list A) :
  forall from, Py.drop_indices from [] l = l.
Proof.
  induction l as [|a l IH]; intros from; [reflexivity|].
  simpl. now rewrite IH.
Qed.

Lemma drop_indices_skip_small {A} (j : nat) (ix : list nat) (l : list A) :
  forall p, (j < p)%nat ->
    Py.drop_indices p (j :: ix) l = Py.drop_indices p ix l.
Proof.
  induction l as [|a l IH]; intros p Hp; [reflexivity|].
  simpl. replace (Nat.eqb p j) with false
    by (symmetry; apply Nat.eqb_neq; lia).
  simpl. rewrite IH by lia. reflexivity.
Qed.

Lemma argwhere_not_before (d : list Z) (from p : nat) :
  (p <= from)%nat ->
  existsb (Nat.eqb p) (Np.argwhere_lt_EPS_succ from d) = false.
Proof.
  intros Hp. apply Bool.not_true_iff_false. intros H.
  apply existsb_exists in H as (j & Hj & Heq).
  apply Nat.eqb_eq in Heq. subst j.
  apply argwhere_bound in Hj. lia.
Qed.

Lemma diff_cons2 (x y : Z) (l : list Z) :
  Np.diff (x :: y :: l) = (y - x) :: Np.diff (y :: l).
Proof. reflexivity. Qed.

Lemma drop_indices_kept_from {A} (ts' : list Z) :
  forall (x : Z) (from : nat) (l : list A),
    Py.drop_indices (S from)
      (Np.argwhere_lt_EPS_succ from (Np.diff (x :: ts'))) l
    = kept_from x ts' l.
Proof.
  induction ts' as [|y ts' IH]; intros x from l.
  - simpl. rewrite drop_indices_nil. destruct l; reflexivity.
  - rewrite diff_cons2. destruct l as [|a l]; [reflexivity|].
    cbn [Np.argwhere_lt_EPS_succ kept_from Py.drop_indices].
    destruct (y - x <? EPS).
    + cbn [existsb]. rewrite Nat.eqb_refl. cbn [orb].
      rewrite drop_indices_skip_small by lia. apply IH.
    + rewrite argwhere_not_before by lia. f_equal. apply IH.
Qed.

Lemma drop_indices_kept {A} (ts0 : list Z) (l : list A) :
  Py.drop_indices 0 (Np.argwhere_lt_EPS_succ 0 (Np.diff ts0)) l = kept ts0 l.
Proof.
  destruct ts0 as [|x ts']; [simpl; rewrite drop_indices_nil; now destruct l|].
  destruct l as [|a l]; [reflexivity|].
  cbn [Py.drop_indices kept].
  rewrite argwhere_not_before by lia. f_equal.
  apply drop_indices_kept_from.
Qed.

Lemma gather_flagged_from {A} (ts' : list Z) :
  forall (x : Z) (from : nat) (pre l r : list A),
    length pre = S from ->
    Py.gather (pre ++ l)
      (Np.argwhere_lt_EPS_succ from (Np.diff (x :: ts'))) = Ok r ->
    r = flagged_from x ts' l.
Proof.
  unfold Py.gather.
  induction ts' as [|y ts' IH]; intros x from pre l r Hpre Hr.
  - simpl in Hr. injection Hr as <-. destruct l; reflexivity.
  - rewrite diff_cons2 in Hr. cbn [Np.argwhere_lt_EPS_succ] in Hr.
    destruct l as [|a l].
    + destruct (y - x <? EPS).
      * cbn [mapM] in Hr. apply bind_Ok in Hr as (b & Hb & _).
        apply getitem_Ok_inv in Hb.
        assert (Hlt : (S from < length (pre ++ []))%nat).
        { apply nth_error_Some. rewrite Hb. discriminate. }
        rewrite app_nil_r in Hlt. lia.
      * destruct (Np.argwhere_lt_EPS_succ (S from) (Np.diff (y :: ts')))
          as [|j ix] eqn:Hix.
        -- injection Hr as <-. reflexivity.
        -- cbn [mapM] in Hr. apply bind_Ok in Hr as (b & Hb & _).
           apply getitem_Ok_inv in Hb.
           assert (Hlt : (j < length (pre ++ []))%nat).
           { apply nth_error_Some. rewrite Hb. discriminate. }
           assert (Hj : (S from < j)%nat).
           { eapply argwhere_bound. rewrite Hix. now left. }
           rewrite app_nil_r in Hlt. lia.
    + replace (pre ++ a :: l) with ((pre ++ [a]) ++ l) in Hr
        by (rewrite <- app_assoc; reflexivity).
      cbn [flagged_from]. destruct (y - x <? EPS).
      * cbn [mapM] in Hr. apply bind_Ok in Hr as (b & Hb & Hr).
        apply bind_Ok in Hr as (bs & Hbs & Hr). injection Hr as <-.
        apply getitem_Ok_inv in Hb.
        rewrite <- app_assoc in Hb. cbn [app] in Hb.
        rewrite nth_error_app2 in Hb by lia.
        rewrite Hpre, Nat.sub_diag in Hb. cbn [nth_error] in Hb.
        injection Hb as <-. f_equal.
        apply (IH y (S from) (pre ++ [a]) l bs);
          [rewrite length_app; simpl; lia | exact Hbs].
      * apply (IH y (S from) (pre ++ [a]) l r);
          [rewrite length_app; simpl; lia | exact Hr].
Qed.

Lemma gather_flagged {A} (ts0 : list Z) (l r : list A) :
  Np.any_lt_EPS (Np.diff ts0) = true ->
  Py.gather l (Np.argwhere_lt_EPS_succ 0 (Np.diff ts0)) = Ok r ->
  r = flagged ts0 l.
Proof.
  intros Hany Hr.
  destruct ts0 as [|x ts']; [discriminate|].
  destruct l as [|a l].
  - destruct (Np.argwhere_lt_EPS_succ 0 (Np.diff (x :: ts')))
      as [|j ix] eqn:Hix.
    + injection Hr as <-. reflexivity.
    + unfold Py.gather in Hr. cbn [mapM] in Hr.
      apply bind_Ok in Hr as (b & Hb & _).
      apply getitem_Ok_inv in Hb. destruct j; discriminate.
  - apply (gather_flagged_from ts' x 0 [a] l r); [reflexivity | exact Hr].
Qed.

Lemma no_flag_kept {A} (ts' : list Z) :
  forall (x : Z) (l : list A),
    Np.any_lt_EPS (Np.diff (x :: ts')) = false ->
    kept_from x ts' l = l /\ flagged_from x ts' l = [].
Proof.
  induction ts' as [|y ts' IH]; intros x l Hany.
  - destruct l; auto.
  - rewrite diff_cons2 in Hany. unfold Np.any_lt_EPS in Hany.
    cbn [existsb] in Hany. apply orb_false_iff in Hany as [Hxy Hrest].
    destruct l as [|a l]; [auto|].
    cbn [kept_from flagged_from]. rewrite Hxy.
    destruct (IH y l Hrest) as [-> ->]. auto.
Qed.

Lemma perm_kept_flagged_from {A} (ts' : list Z) :
  forall (x : Z) (l : list A),
    Permutation (kept_from x ts' l ++ flagged_from x ts' l) l.
Proof.
  induction ts' as [|y ts' IH]; intros x l.
  - destruct l; simpl; [reflexivity | rewrite app_nil_r; reflexivity].
  - destruct l as [|a l]; [reflexivity|].
    cbn [kept_from flagged_from]. destruct (y - x <? EPS).
    + symmetry. apply Permutation_cons_app. symmetry. apply IH.
    + simpl. constructor. apply IH.
Qed.

Lemma perm_kept_flagged {A} (ts0 : list Z) (l : list A) :
  Permutation (kept ts0 l ++ flagged ts0 l) l.
Proof.
  destruct ts0 as [|x ts']; destruct l as [|a l]; simpl;
    try reflexivity.
  - rewrite app_nil_r. reflexivity.
  - constructor. apply perm_kept_flagged_from.
Qed.

Lemma filter_discont_Ok (ts0 : list Z) (ys0 : list (list Z))
    (rep : bool) (ix : list nat) (td : list Z) (yd : list (list Z))
    (ts' : list Z) (ys' : list (list Z)) :
  filter_discont ts0 ys0 = Ok (rep, ix, td, yd, ts', ys') ->
  ts' = kept ts0 ts0 /\ ys' = kept ts0 ys0
  /\ td = flagged ts0 ts0 /\ yd = flagged ts0 ys0
  /\ length td = length ix /\ length yd = length ix
  /\ rep = Np.any_lt_EPS (Np.diff ts0).
Proof.
  unfold filter_discont.
  destruct (Np.any_lt_EPS (Np.diff ts0)) eqn:Hany; intros H.
  - apply bind_Ok in H as (td0 & Htd & H).
    apply bind_Ok in H as (yd0 & Hyd & H).
    injection H as <- <- <- <- <- <-.
    rewrite !drop_indices_kept.
    rewrite (mapM_length _ _ _ Htd), (mapM_length _ _ _ Hyd).
    rewrite (gather_flagged ts0 ts0 td0 Hany Htd).
    rewrite (gather_flagged ts0 ys0 yd0 Hany Hyd) at 1.
    repeat split; reflexivity.
  - injection H as <- <- <- <- <- <-.
    destruct ts0 as [|x ts0]; [destruct ys0; repeat split; reflexivity|].
    destruct (no_flag_kept ts0 x ts0 Hany) as [Hk Hf].
    destruct ys0 as [|y ys0]; simpl; rewrite ?Hk, ?Hf;
      [repeat split; reflexivity|].
    destruct (no_flag_kept ts0 x ys0 Hany) as [Hk' Hf'].
    rewrite Hk', Hf'. repeat split; reflexivity.
Qed.



Lemma length_kept_flagged {A} (ts0 : list Z) (l : list A) :
  (length (kept ts0 l) + length (flagged ts0 l) = length l)%nat.
Proof.
  rewrite <- length_app. apply Permutation_length, perm_kept_flagged.
Qed.

Lemma flagged_from_count {A} (ts' : list Z) :
  forall (x : Z) (l : list A),
    (length ts' <= length l)%nat ->
    length (flagged_from x ts' l)
    = length (filter (fun d => d <? EPS) (Np.diff (x :: ts'))).
Proof.
  induction ts' as [|y ts' IH]; intros x l Hl.
  - destruct l; reflexivity.
  - destruct l as [|a l]; [simpl in Hl; lia|].
    rewrite diff_cons2. cbn [flagged_from filter].
    simpl in Hl. destruct (y - x <? EPS); simpl; rewrite IH by lia;
      reflexivity.
Qed.

Lemma flagged_count (ts0 : list Z) :
  length (flagged ts0 ts0) = jump_count ts0.
Proof.
  unfold jump_count. destruct ts0 as [|x ts']; [reflexivity|].
  simpl flagged. apply flagged_from_count. lia.
Qed.





(** X4.  Every strictly decreasing boundary sequence of two or more
    times, with consistent lengths, is rejected with [ValueError]: each of
    its steps is below [EPS]. *)
Theorem X4_decreasing_sequence_rejected
    (ts0 : list time) (interps : list interp) (ys0 : list vec) :
  strictly_decreasing ts0 ->
  (2 <= length ts0)%nat ->
  length ts0 = S (length interps) ->
  length ys0 = length ts0 ->
  __init__ ts0 interps ys0 = Raise ValueError.
Proof. apply descending_boundaries_rejected. Qed.

Lemma X4_decreasing_sequence_rejected_witness :
  __init__ [sec 8; sec 4; sec 0] [HistConst [5]; Dense (fun t => [t])]
    [[5]; [7]; [9]] = Raise ValueError.
Proof.
  apply X4_decreasing_sequence_rejected.
  - repeat constructor.
  - simpl. lia.
  - reflexivity.
  - reflexivity.
Defined.

Lemma Forall_HdRel (R : Z -> Z -> Prop) (x : Z) (l : list Z) :
  Forall (R x) l -> HdRel R x l.
Proof. destruct 1; constructor; assumption. Qed.

Lemma kept_from_above (ts' : list Z) :
  forall prev, StronglySorted Z.le (prev :: ts') ->
    Forall (fun z => prev < z) (kept_from prev ts' ts').
Proof.
  induction ts' as [|y ts' IH]; intros prev Hs; [constructor|].
  inversion Hs as [|? ? Hs' Hprev]; subst.
  inversion Hprev as [|? ? Hy _]; subst.
  specialize (IH y Hs').
  assert (Hweak : Forall (fun z => prev < z) (kept_from y ts' ts')).
  { eapply Forall_impl; [|exact IH]. simpl. intros; lia. }
  cbn [kept_from]. destruct (Z.ltb_spec (y - prev) EPS); [exact Hweak|].
  constructor; [pose proof EPS_pos; lia | exact Hweak].
Qed.

Lemma kept_from_increasing (ts' : list Z) :
  forall prev, StronglySorted Z.le (prev :: ts') ->
    Sorted Z.lt (kept_from prev ts' ts').
Proof.
  induction ts' as [|y ts' IH]; intros prev Hs; [constructor|].
  inversion Hs as [|? ? Hs' _]; subst.
  cbn [kept_from]. destruct (y - prev <? EPS); [apply IH; exact Hs'|].
  constructor; [apply IH; exact Hs'|].
  apply Forall_HdRel, kept_from_above. exact Hs'.
Qed.

(** On a sequence that never decreases, what the filter keeps is strictly
    increasing. *)
Lemma kept_increasing (ts0 : list Z) :
  nondecreasing ts0 -> strictly_increasing (kept ts0 ts0).
Proof.
  intros H. apply Sorted_StronglySorted in H;
    [|intros x y z; apply Z.le_trans].
  destruct ts0 as [|x ts']; [constructor|].
  simpl kept. constructor.
  - apply kept_from_increasing. exact H.
  - apply Forall_HdRel, kept_from_above. exact H.
Qed.

Lemma filter_discont_total (ts0 : list Z) (ys0 : list (list Z)) :
  length ys0 = length ts0 ->
  exists rep ix td yd ts' ys',
    filter_discont ts0 ys0 = Ok (rep, ix, td, yd, ts', ys').
Proof.
  intros Hv. unfold filter_discont.
  destruct (Np.any_lt_EPS (Np.diff ts0)); [|repeat eexists].
  assert (Hrange : forall j,
             In j (Np.argwhere_lt_EPS_succ 0 (Np.diff ts0)) ->
             (j < length ts0)%nat).
  { intros j Hj. apply argwhere_bound in Hj. rewrite diff_length in Hj. lia. }
  destruct (gather_in_range ts0 _ Hrange) as [td Htd].
  destruct (gather_in_range ys0 (Np.argwhere_lt_EPS_succ 0 (Np.diff ts0)))
    as [yd Hyd]; [intros j Hj; rewrite Hv; auto|].
  rewrite Htd. cbn [bind]. rewrite Hyd. cbn [bind]. repeat eexists.
Qed.

Lemma any_lt_EPS_count (ts0 : list Z) :
  Np.any_lt_EPS (Np.diff ts0) = negb (Nat.eqb (jump_count ts0) 0).
Proof.
  unfold jump_count, Np.any_lt_EPS.
  induction (Np.diff ts0) as [|d ds IH]; [reflexivity|].
  simpl. destruct (d <? EPS); [reflexivity | exact IH].
Qed.



(** X6.  Every constructed instance satisfies: [n_segments] is the number
    of interpolants and one less than the number of working boundaries,
    [ys] has one entry per boundary, the cached view [ts_sorted] is [ts] or
    its reversal according to [ascending] and is sorted in ascending order,
    [t_min] and [t_max] are its first and last entries, and
    [t_min <= t_max]. *)
Theorem X6_constructor_invariant
    (ts0 : list time) (interps : list interp) (ys0 : list vec)
    (self : ContinuousExt) :
  __init__ ts0 interps ys0 = Ok self ->
  interpolants self = interps
  /\ n_segments self = length interps
  /\ length (ts self) = S (n_segments self)
  /\ length (ys self) = length (ts self)
  /\ ts_sorted self = (if ascending self then ts self else rev (ts self))
  /\ StronglySorted Z.le (ts_sorted self)
  /\ t_min self = hd 0 (ts_sorted self)
  /\ t_max self = last (ts_sorted self) 0
  /\ t_min self <= t_max self.
Proof.
  intros Hinit. apply init_Ok in Hinit as (Hwf & Hinterps & _).
  destruct (wf_sorted_view self Hwf) as (Hsorted & Hmin & Hmax).
  pose proof (wf_len_interp self Hwf) as Hn. rewrite Hinterps in Hn.
  repeat split; auto using wf_len_ts, wf_len_ys, wf_ts_sorted.
  rewrite Hmin, Hmax.
  destruct Hsorted as [|x l Hs Hx]; [simpl; lia|].
  destruct l as [|y l']; [simpl; lia|].
  pose proof (last_In l' y 0) as Hin.
  rewrite Forall_forall in Hx. specialize (Hx _ Hin).
  change (last (x :: y :: l') 0) with (last (y :: l') 0). simpl hd. lia.
Qed.

Lemma X6_constructor_invariant_witness :
  interpolants down_instance = [HistFun (fun t => [t])]
  /\ n_segments down_instance = length [HistFun (fun t => [t])]
  /\ length (ts down_instance) = S (n_segments down_instance)
  /\ length (ys down_instance) = length (ts down_instance)
  /\ ts_sorted down_instance
     = (if ascending down_instance then ts down_instance
        else rev (ts down_instance))
  /\ StronglySorted Z.le (ts_sorted down_instance)
  /\ t_min down_instance = hd 0 (ts_sorted down_instance)
  /\ t_max down_instance = last (ts_sorted down_instance) 0
  /\ t_min down_instance <= t_max down_instance.
Proof.
  apply (X6_constructor_invariant [sec 40; sec 0; sec 20] _ [[5]; [7]; [9]]).
  exact down_instance_init.
Defined.

(** ** Segment selection inside the range *)

Lemma searchsorted_left_spec (l : list Z) (v d : Z) :
  (forall i, (i < Np.searchsorted_left l v)%nat -> nth i l d < v)
  /\ ((Np.searchsorted_left l v < length l)%nat ->
      v <= nth (Np.searchsorted_left l v) l d).
Proof.
  induction l as [|x l [IH1 IH2]]; simpl.
  - split; intros; lia.
  - destruct (Z.ltb_spec x v) as [Hlt|Hge].
    + split.
      * intros [|i] Hi; [exact Hlt | apply IH1; lia].
      * intros Hp. apply IH2. lia.
    + split; [intros i Hi; lia | intros _; exact Hge].
Qed.

Lemma searchsorted_right_spec (l : list Z) (v d : Z) :
  (forall i, (i < Np.searchsorted_right l v)%nat -> nth i l d <= v)
  /\ ((Np.searchsorted_right l v < length l)%nat ->
      v < nth (Np.searchsorted_right l v) l d).
Proof.
  induction l as [|x l [IH1 IH2]]; simpl.
  - split; intros; lia.
  - destruct (Z.leb_spec x v) as [Hle|Hgt].
    + split.
      * intros [|i] Hi; [exact Hle | apply IH1; lia].
      * intros Hp. apply IH2. lia.
    + split; [intros i Hi; lia | intros _; exact Hgt].
Qed.

Lemma last_nth (l : list Z) (d : Z) : last l d = nth (length l - 1) l d.
Proof.
  induction l as [|x [|y l'] IH]; try reflexivity.
  change (last (x :: y :: l') d) with (last (y :: l') d).
  rewrite IH. simpl. now rewrite Nat.sub_0_r.
Qed.

Lemma hd_nth (l : list Z) (d : Z) : hd d l = nth 0 l d.
Proof. destruct l; reflexivity. Qed.

Lemma sorted_nth_le (l : list Z) :
  StronglySorted Z.le l ->
  forall i j d, (i <= j < length l)%nat -> nth i l d <= nth j l d.
Proof.
  induction 1 as [|x l Hs IH Hx]; intros i j d Hij; simpl in Hij; [lia|].
  destruct j as [|j]; [replace i with 0%nat by lia; lia|].
  destruct i as [|i].
  - simpl. rewrite Forall_forall in Hx. apply Hx. apply nth_In. lia.
  - simpl. apply IH. lia.
Qed.

(** X7.  On a constructed instance with at least one segment, a time
    inside [[t_min, t_max]] selects a segment whose two boundaries enclose
    it: [ts[s] <= t <= ts[s+1]] when ascending, [ts[s+1] <= t <= ts[s]]
    when descending. *)
Theorem X7_selected_segment_encloses_time (self : ContinuousExt) (t : time) :
  wf self ->
  (1 <= n_segments self)%nat ->
  t_min self <= t <= t_max self ->
  exists s : nat,
    select_segment self t = Z.of_nat s
    /\ (s < n_segments self)%nat
    /\ if ascending self
       then nth s (ts self) 0 <= t <= nth (S s) (ts self) 0
       else nth (S s) (ts self) 0 <= t <= nth s (ts self) 0.
Proof.
  intros Hwf Hn Ht.
  pose proof (wf_len_ts self Hwf) as Hlen.
  destruct (wf_sorted_view self Hwf) as (Hsorted & Hmin & Hmax).
  rewrite Hmin, Hmax, hd_nth, last_nth in Ht.
  unfold select_segment.
  destruct (wf_oriented self Hwf) as [Ha Hs _ | Ha Hs Hdec];
    rewrite Ha, Hs in *; simpl negb; cbv iota; simpl Np.searchsorted.
  - rewrite Hlen in Ht.
    replace (S (n_segments self) - 1)%nat with (n_segments self) in Ht by lia.
    destruct (searchsorted_left_spec (ts self) t 0) as [Hbelow Hat].
    pose proof (searchsorted_left_le (ts self) t) as Hle.
    set (p := Np.searchsorted_left (ts self) t) in *.
    assert (Hp : (p <= n_segments self)%nat).
    { destruct (Nat.le_gt_cases p (n_segments self)) as [|Hgt]; [assumption|].
      specialize (Hbelow (n_segments self) Hgt). lia. }
    exists (p - 1)%nat. split; [lia|]. split; [lia|].
    destruct p as [|p].
    + simpl. specialize (Hat ltac:(lia)). split; [lia|].
      pose proof (sorted_nth_le _ Hsorted 0 1 0 ltac:(lia)). lia.
    + replace (S p - 1)%nat with p by lia.
      split; [specialize (Hbelow p ltac:(lia)); lia | apply Hat; lia].
  - rewrite length_rev, Hlen in Ht.
    replace (S (n_segments self) - 1)%nat with (n_segments self) in Ht by lia.
    destruct (searchsorted_right_spec (rev (ts self)) t 0) as [Hbelow Hat].
    pose proof (searchsorted_right_le (rev (ts self)) t) as Hle.
    rewrite length_rev, Hlen in Hle, Hat.
    set (p := Np.searchsorted_right (rev (ts self)) t) in *.
    assert (Hp : (1 <= p)%nat).
    { destruct p; [specialize (Hat ltac:(lia)); lia | lia]. }
    assert (Hflip : forall i, (i < S (n_segments self))%nat ->
              nth i (ts self) 0 = nth (n_segments self - i) (rev (ts self)) 0).
    { intros i Hi. rewrite (nth_rev_flip (ts self) i 0) by lia.
      f_equal. lia. }
    destruct (Nat.eq_dec p (S (n_segments self))) as [Hfull|Hpart].
    + exists 0%nat. split; [lia|]. split; [lia|].
      rewrite !Hflip by lia. rewrite Nat.sub_0_r.
      split; [apply Hbelow; lia | lia].
    + exists (n_segments self - p)%nat. split; [lia|]. split; [lia|].
      rewrite !Hflip by lia.
      replace (n_segments self - (n_segments self - p))%nat with p by lia.
      replace (n_segments self - S (n_segments self - p))%nat
        with (p - 1)%nat by lia.
      split; [apply Hbelow; lia|].
      specialize (Hat ltac:(lia)). lia.
Qed.

Lemma X7_selected_segment_encloses_time_witness :
  exists s : nat,
    select_segment down_instance (sec 30) = Z.of_nat s
    /\ (s < n_segments down_instance)%nat
    /\ if ascending down_instance
       then nth s (ts down_instance) 0 <= sec 30
            <= nth (S s) (ts down_instance) 0
       else nth (S s) (ts down_instance) 0 <= sec 30
            <= nth s (ts down_instance) 0.
Proof.
  apply X7_selected_segment_encloses_time.
  - exact down_instance_wf.
  - simpl. lia.
  - split; vm_compute; discriminate.
Defined.

(** ** Queries near a recorded discontinuity *)

Lemma init_discont_lengths
    (ts0 : list Z) (interps : list interp) (ys0 : list (list Z))
    (self : ContinuousExt) :
  __init__ ts0 interps ys0 = Ok self ->
  length (y_discont self) = length (t_discont self).
Proof.
  intros Hinit. apply init_Ok in Hinit as (_ & _ & Hf).
  apply filter_discont_Ok in Hf as (_ & _ & _ & _ & Htd & Hyd & _).
  congruence.
Qed.

Lemma searchsorted_left_at (l : list Z) (v d : Z) (k : nat) :
  (k < length l)%nat ->
  (forall i, (i < k)%nat -> nth i l d < v) ->
  v <= nth k l d ->
  Np.searchsorted_left l v = k.
Proof.
  revert k. induction l as [|x l IH]; intros k Hk Hbelow Hat;
    simpl in Hk; [lia|].
  simpl. destruct k as [|k].
  - simpl in Hat. replace (x <? v) with false
      by (symmetry; apply Z.ltb_ge; exact Hat). reflexivity.
  - pose proof (Hbelow 0%nat ltac:(lia)) as H0. simpl in H0.
    replace (x <? v) with true by (symmetry; apply Z.ltb_lt; exact H0).
    f_equal. apply IH; [lia | | exact Hat].
    intros i Hi. apply (Hbelow (S i)). lia.
Qed.





(** ** Shape of the batched result *)

(** X10.  An empty array of query times is answered with [ValueError] by
    every instance: with discontinuities it has no marker, without them
    there is no run to stack. *)
Theorem X10_empty_query_rejected (self : ContinuousExt) :
  call_batched self [] = Raise ValueError
  /\ __call__ self (Array []) = Raise ValueError.
Proof.
  assert (H : call_batched self [] = Raise ValueError).
  { unfold call_batched, prepare_times.
    destruct (repeated_t self); reflexivity. }
  split; [exact H|]. simpl. rewrite H. reflexivity.
Qed.

Lemma insert_length {A} (a : list A) (idx : nat) (v : A) (r : list A) :
  Np.insert a idx v = Ok r -> length r = S (length a).
Proof.
  unfold Np.insert.
  destruct (Nat.leb_spec idx (length a)) as [Hle|_]; [|discriminate].
  intros H. injection H as <-.
  rewrite length_app. cbn [length].
  rewrite length_firstn, length_skipn. lia.
Qed.

Lemma reinsert_length (self : ContinuousExt) (ks : list nat) :
  forall (t_tmp : list Z) (m m' : list (list Z)),
    reinsert self ks t_tmp m = Ok m' ->
    length m' = (length m + length ks)%nat.
Proof.
  induction ks as [|k ks IH]; intros t_tmp m m' H.
  - injection H as <-. simpl. lia.
  - cbn [reinsert] in H.
    apply bind_Ok in H as (td & _ & H).
    apply bind_Ok in H as (t_tmp' & _ & H).
    apply bind_Ok in H as (yd & _ & H).
    apply bind_Ok in H as (col & _ & H).
    apply bind_Ok in H as (m1 & Hm1 & H).
    apply IH in H. apply insert_length in Hm1.
    rewrite H, Hm1. simpl. lia.
Qed.

Lemma take_length {A} (a : list A) (order : list nat) (r : list A) :
  Np.take a order = Ok r -> length r = length order.
Proof. apply mapM_length. Qed.

Lemma inverse_perm_length (order : list nat) :
  length (Np.inverse_perm order) = length order.
Proof. unfold Np.inverse_perm. now rewrite length_map, length_seq. Qed.

Lemma argsort_length (a : list Z) : length (Np.argsort a) = length a.
Proof.
  rewrite (Permutation_length (argsort_perm a)). apply length_seq.
Qed.

Lemma delete_markers_length (t : list Z) :
  (length (Np.delete t (Np.argwhere_lt_EPS_succ 0 (Np.diff t)))
   + jump_count t = length t)%nat.
Proof.
  unfold Np.delete. rewrite drop_indices_kept, <- flagged_count.
  apply length_kept_flagged.
Qed.



(** X12.  The batched path (subtract one, mask below 0, mask above
    [n_segments - 1], flip) and the scalar path ([min(max(ind - 1, 0),
    n_segments - 1)], flip) assign every time the same segment index, on
    every state, also with no segment at all. *)
Theorem X12_batched_and_scalar_select_same_segment
    (self : ContinuousExt) (t_sorted : list time) :
  segments_of self t_sorted = map (select_segment self) t_sorted.
Proof. apply segments_of_select. Qed.

(** ** Batched evaluation of sorted queries *)

Lemma map_nth_seq_gen {A B} (g : A -> B) (l : list A) (d : A) :
  map (fun i => g (nth i l d)) (seq 0 (length l)) = map g l.
Proof.
  induction l as [|x l IH]; [reflexivity|].
  simpl. f_equal. rewrite <- seq_shift, map_map. exact IH.
Qed.

Lemma insert_key_front (a : list Z) (i j : nat) (order : list nat) :
  nth i a 0 <= nth j a 0 ->
  Np.insert_key a i (j :: order) = i :: j :: order.
Proof.
  intros H. simpl.
  replace (nth i a 0 <=? nth j a 0) with true
    by (symmetry; apply Z.leb_le; exact H).
  reflexivity.
Qed.

(** [np.argsort] of a sorted array is the identity permutation. *)
Lemma argsort_sorted (a : list Z) :
  StronglySorted Z.le a -> Np.argsort a = seq 0 (length a).
Proof.
  intros Hs. unfold Np.argsort.
  assert (H : forall m k, (k + m <= length a)%nat ->
             fold_right (Np.insert_key a) [] (seq k m) = seq k m).
  { induction m as [|m IH]; intros k Hk; [reflexivity|].
    cbn [seq fold_right]. rewrite IH by lia.
    destruct m as [|m]; [reflexivity|].
    cbn [seq]. apply insert_key_front.
    apply sorted_nth_le; [exact Hs | lia]. }
  apply H. lia.
Qed.

Lemma select_segment_mono (self : ContinuousExt) (x y : time) :
  ascending self = true -> x <= y ->
  select_segment self x <= select_segment self y.
Proof.
  intros Hasc Hxy. unfold select_segment. rewrite Hasc.
  simpl Np.searchsorted. simpl negb. cbv iota.
  pose proof (searchsorted_left_mono (ts_sorted self) x y Hxy). lia.
Qed.

Lemma groupby_head (x : Z) (l : list Z) :
  exists c gs, Py.groupby (x :: l) = (x, S c) :: gs.
Proof.
  simpl. destruct (Py.groupby l) as [|[k c] gs]; [eauto|].
  destruct (Z.eqb_spec x k) as [->|_]; eauto.
Qed.

(** A leading run of zeros is the first group. *)
Lemma groupby_zero_run (zs rest : list Z) :
  zs <> [] ->
  Forall (fun z => z = 0) zs ->
  Forall (fun z => z <> 0) rest ->
  Py.groupby (zs ++ rest) = (0, length zs) :: Py.groupby rest.
Proof.
  intros Hne Hz Hrest.
  induction zs as [|z zs IH]; [congruence|].
  inversion Hz as [|? ? Hz0 Hz']; subst.
  destruct zs as [|z' zs].
  - cbn [app Py.groupby length].
    destruct rest as [|r rest]; [reflexivity|].
    destruct (groupby_head r rest) as (c & gs & Hg). rewrite Hg.
    inversion Hrest; subst.
    replace (0 =? r) with false by (symmetry; apply Z.eqb_neq; auto).
    reflexivity.
  - specialize (IH ltac:(discriminate) Hz').
    change ((0 :: z' :: zs) ++ rest) with (0 :: ((z' :: zs) ++ rest)).
    cbn [Py.groupby]. rewrite IH. rewrite Z.eqb_refl. reflexivity.
Qed.

Section SortedQueries.

Variable self : ContinuousExt.
Hypothesis no_discont : repeated_t self = false.
Variable y0 : list Z.
Hypothesis first_state : Py.getitem (ys self) 0 = Ok y0.

(** On the history segment one column of the batched loop is the scalar
    result, provided it has the state dimension. *)
Lemma history_column (x : time) (y : list Z) :
  select_segment self x = 0 ->
  _call_single self x = Ok y ->
  length y = length y0 ->
  exists interp0,
    Py.index (interpolants self) 0 = Ok interp0
    /\ (va <- history_value interp0 (length y0) x ;;
        set_column (length y0) va) = Ok y.
Proof.
  intros Hseg Hy Hlen.
  rewrite call_single_regular in Hy by (rewrite no_discont; reflexivity).
  rewrite Hseg in Hy. apply bind_Ok in Hy as (obj & Hobj & Hy).
  exists obj. split; [exact Hobj|].
  assert (Hset : set_column (length y0) y = Ok y).
  { unfold set_column. rewrite Hlen, Nat.eqb_refl. reflexivity. }
  unfold eval_segment in Hy. simpl in Hy.
  destruct obj as [fs|f|v|f]; simpl in Hy; try discriminate;
    injection Hy as <-; cbn [history_value bind]; try exact Hset.
  rewrite length_map in Hlen. rewrite <- Hlen.
  rewrite (mapM_pointwise _ (fun m => nth m fs (fun _ => 0) x)).
  - cbn [bind]. rewrite (map_nth_seq_gen (fun f => f x) fs).
    rewrite Hlen. exact Hset.
  - intros m Hm. apply in_seq in Hm.
    rewrite (getitem_Ok fs m (fun _ => 0)) by lia. reflexivity.
Qed.

(** A history run that starts the sorted query: the loop reads [t[k]],
    which here is the [k]-th time of the run. *)
Lemma history_block_prefix (t : list time) (c : nat) (d : nat) :
  d = length y0 ->
  (c <= length t)%nat ->
  Forall (fun x => select_segment self x = 0
                   /\ exists y, _call_single self x = Ok y /\ length y = d)
         (firstn c t) ->
  c <> 0%nat ->
  history_block self 0 t c = Ok (map (scalar_column self) (firstn c t)).
Proof.
  intros Hd Hc Hall Hne. subst d.
  assert (Hx0 : exists x, nth_error (firstn c t) 0 = Some x).
  { destruct (firstn c t) as [|x l] eqn:Hf; [|exists x; reflexivity].
    apply (f_equal (@length Z)) in Hf. rewrite length_firstn in Hf.
    simpl in Hf. lia. }
  destruct Hx0 as [x0 Hx0].
  rewrite Forall_forall in Hall.
  destruct (Hall x0 (nth_error_In _ _ Hx0)) as (Hs0 & y & Hy & Hly).
  destruct (history_column x0 y Hs0 Hy Hly) as (interp0 & Hobj & _).
  unfold history_block. rewrite Hobj, first_state. cbn [bind].
  rewrite (mapM_pointwise _ (fun k => scalar_column self (nth k t 0))).
  - f_equal. rewrite <- (map_nth_seq_gen (scalar_column self) (firstn c t) 0).
    rewrite length_firstn, Nat.min_l by exact Hc.
    apply map_ext_in. intros k Hk. apply in_seq in Hk.
    f_equal. rewrite nth_firstn.
    replace (k <? c)%nat with true by (symmetry; apply Nat.ltb_lt; lia).
    reflexivity.
  - intros k Hk. apply in_seq in Hk.
    rewrite (getitem_Ok t k 0) by lia. cbn [bind].
    assert (Hin : In (nth k t 0) (firstn c t)).
    { replace (nth k t 0) with (nth k (firstn c t) 0).
      - apply nth_In. rewrite length_firstn. lia.
      - rewrite nth_firstn.
        replace (k <? c)%nat with true by (symmetry; apply Nat.ltb_lt; lia).
        reflexivity. }
    destruct (Hall _ Hin) as (Hs & yk & Hyk & Hlk).
    destruct (history_column _ yk Hs Hyk Hlk) as (interp' & Hobj' & Hcol).
    rewrite Hobj in Hobj'. injection Hobj' as <-.
    unfold scalar_column. rewrite Hyk. exact Hcol.
Qed.

End SortedQueries.

Lemma index_nil {A} (s : Z) : Py.index (@nil A) s = Raise IndexError.
Proof.
  unfold Py.index, Py.getitem. cbn [length Z.of_nat].
  destruct (0 <=? s); destruct (s <? 0); destruct (- 0 <=? s);
    cbn [andb]; try reflexivity;
    match goal with |- context [nth_error [] ?n] => destruct n end;
    reflexivity.
Qed.

(** Once the run loop has produced the scalar columns of the sorted
    times, stacking and undoing the sort give the scalar columns of the
    query. *)
Lemma batched_from_blocks (self : ContinuousExt) (t : list time)
    (blocks : list (list (list Z))) (d : nat) :
  repeated_t self = false ->
  t <> [] ->
  let t_sorted := map (fun i => nth i t 0) (Np.argsort t) in
  eval_groups self t t_sorted 0 (Py.groupby (segments_of self t_sorted))
  = Ok blocks ->
  concat blocks = map (scalar_column self) t_sorted ->
  Forall (fun b => b <> []) blocks ->
  Forall (fun x => length (scalar_column self x) = d) t ->
  call_batched self t = Ok (map (scalar_column self) t).
Proof.
  intros Hrep Hne t_sorted Hblocks Hcat Hnonempty Hdim.
  assert (Hin : forall x, In x t_sorted -> In x t).
  { intros x Hx. apply in_map_iff in Hx as (i & <- & Hi).
    apply nth_In.
    apply (Permutation_in _ (argsort_perm t)) in Hi.
    apply in_seq in Hi. lia. }
  unfold call_batched, prepare_times. rewrite Hrep. cbn [bind].
  rewrite take_argsort. cbn [bind]. fold t_sorted.
  rewrite Hblocks. cbn [bind].
  rewrite (hstack_uniform blocks d); [| |exact Hnonempty|].
  - cbn [bind]. rewrite Hcat. unfold t_sorted. rewrite map_map.
    rewrite (take_inverse_perm _ _ (length t) (argsort_perm t)).
    cbn [bind].
    rewrite <- (map_map (fun i => nth i t 0) (scalar_column self)).
    rewrite map_nth_seq. reflexivity.
  - intros ->. simpl in Hcat. symmetry in Hcat.
    apply map_eq_nil in Hcat. unfold t_sorted in Hcat.
    apply map_eq_nil in Hcat.
    pose proof (Permutation_length (argsort_perm t)) as Hlen.
    rewrite Hcat, length_seq in Hlen. simpl in Hlen.
    symmetry in Hlen. apply length_zero_iff_nil in Hlen. contradiction.
  - rewrite Hcat. apply Forall_map.
    rewrite Forall_forall in *. auto.
Qed.

(** In a sorted query on an ascending instance the times of the history
    segment come first. *)
Lemma history_times_first (self : ContinuousExt) (t : list time) :
  ascending self = true ->
  (1 <= n_segments self)%nat ->
  StronglySorted Z.le t ->
  exists c,
    (c <= length t)%nat
    /\ Forall (fun x => select_segment self x = 0) (firstn c t)
    /\ Forall (fun x => select_segment self x <> 0) (skipn c t).
Proof.
  intros Hasc Hn. induction 1 as [|x t Hs IH Hx].
  - exists 0%nat. simpl. auto.
  - destruct (Z.eq_dec (select_segment self x) 0) as [H0|H0].
    + destruct IH as (c & Hc & Hz & Hnz).
      exists (S c). simpl. repeat split; [lia | constructor; auto | exact Hnz].
    + exists 0%nat. simpl. repeat split; [lia | constructor|].
      pose proof (select_segment_range self x Hn) as Hrange.
      constructor; [exact H0|].
      eapply Forall_impl; [|exact Hx]. simpl. intros y Hxy.
      pose proof (select_segment_mono self x y Hasc Hxy). lia.
Qed.

(** X20.  On a constructed ascending instance without discontinuities, a
    non-empty query array that is already sorted is evaluated exactly as
    by the scalar path, one column per time, the history segment included,
    provided every scalar result has the length of a state vector
    ([len(ys[0])]). *)
Theorem X20_sorted_batched_matches_scalar
    (self : ContinuousExt) (t : list time) :
  wf self ->
  ascending self = true ->
  repeated_t self = false ->
  t <> [] ->
  StronglySorted Z.le t ->
  Forall (fun x => exists y, _call_single self x = Ok y
                             /\ length y = length (hd [] (ys self))) t ->
  exists m,
    call_batched self t = Ok m
    /\ length m = length t
    /\ forall j x, nth_error t j = Some x ->
         exists y, nth_error m j = Some y /\ _call_single self x = Ok y.
Proof.
  intros Hwf Hasc Hrep Hne Hsorted Hall.
  assert (Hsc : forall x, In x t ->
            _call_single self x = Ok (scalar_column self x)
            /\ length (scalar_column self x) = length (hd [] (ys self))).
  { intros x Hx. rewrite Forall_forall in Hall.
    destruct (Hall x Hx) as (y & Hy & Hl).
    unfold scalar_column. rewrite Hy. auto. }
  assert (Hbatched : call_batched self t = Ok (map (scalar_column self) t)).
  { (* the state dimension *)
    pose proof (wf_len_ts self Hwf) as Hlts.
    pose proof (wf_len_ys self Hwf) as Hlys.
    destruct (ys self) as [|y0 ys'] eqn:Hys; [simpl in Hlys; lia|].
    assert (Hfirst : Py.getitem (ys self) 0 = Ok y0)
      by (rewrite Hys; reflexivity).
    simpl hd in Hsc.
    (* at least one segment *)
    assert (Hn : (1 <= n_segments self)%nat).
    { destruct t as [|x t']; [congruence|].
      destruct (Hsc x (or_introl eq_refl)) as [Hx _].
      rewrite call_single_regular in Hx by (rewrite Hrep; reflexivity).
      apply bind_Ok in Hx as (obj & Hobj & _).
      pose proof (wf_len_interp self Hwf) as Hli.
      destruct (n_segments self); [|lia].
      apply length_zero_iff_nil in Hli.
      rewrite Hli, index_nil in Hobj. discriminate. }
    destruct (history_times_first self t Hasc Hn Hsorted)
      as (c & Hc & Hzero & Hrest).
    assert (Hoff : Forall (off_history self) (skipn c t)).
    { rewrite Forall_forall in *. intros x Hx. split; [auto|].
      exists (scalar_column self x). apply Hsc.
      rewrite <- (firstn_skipn c t). apply in_or_app. now right. }
    assert (Hid : map (fun i => nth i t 0) (Np.argsort t) = t).
    { rewrite argsort_sorted by exact Hsorted. apply map_nth_seq. }
    destruct (eval_groups_off_history self Hrep t t (skipn c t) c
                eq_refl Hoff) as (blocks & Hblocks & Hcat & Hnonempty).
    destruct c as [|c].
    - apply (batched_from_blocks self t blocks (length y0) Hrep Hne);
        rewrite ?Hid, ?segments_of_select; auto.
      rewrite Forall_forall. intros x Hx. apply Hsc. exact Hx.
    - apply (batched_from_blocks self t
               (map (scalar_column self) (firstn (S c) t) :: blocks)
               (length y0) Hrep Hne);
        rewrite ?Hid, ?segments_of_select.
      + rewrite <- (firstn_skipn (S c) t) at 3.
        rewrite map_app, groupby_zero_run.
        * rewrite eval_groups_cons, Z.eqb_refl, length_map.
          unfold Py.slice. rewrite skipn_O, Nat.add_0_l, Nat.sub_0_r.
          rewrite length_firstn, length_firstn, Nat.min_l by lia.
          rewrite Nat.min_l by lia.
          rewrite (history_block_prefix self Hrep y0 Hfirst t (S c)
                     (length y0)); auto.
          -- cbn [bind]. rewrite Hblocks. reflexivity.
          -- rewrite Forall_forall in *. intros x Hx. split; [auto|].
             exists (scalar_column self x). apply Hsc.
             rewrite <- (firstn_skipn (S c) t). apply in_or_app. now left.
        * destruct t; [congruence | discriminate].
        * apply Forall_map. exact Hzero.
        * apply Forall_map. exact Hrest.
      + cbn [concat]. rewrite Hcat, <- map_app, firstn_skipn. reflexivity.
      + constructor; [|exact Hnonempty].
        destruct t; [congruence | discriminate].
      + rewrite Forall_forall. intros x Hx. apply Hsc. exact Hx. }
  exists (map (scalar_column self) t). split; [exact Hbatched|].
  split; [apply length_map|].
  intros j x Hj. exists (scalar_column self x). split.
  - rewrite nth_error_map, Hj. reflexivity.
  - apply Hsc. eapply nth_error_In. exact Hj.
Qed.

Lemma X20_sorted_batched_matches_scalar_witness :
  exists m,
    call_batched hist_instance [sec 2; sec 3; sec 6] = Ok m
    /\ length m = 3%nat
    /\ forall j x, nth_error [sec 2; sec 3; sec 6] j = Some x ->
         exists y, nth_error m j = Some y /\ _call_single hist_instance x = Ok y.
Proof.
  apply (X20_sorted_batched_matches_scalar hist_instance
           [sec 2; sec 3; sec 6]).
  - exact hist_instance_wf.
  - reflexivity.
  - reflexivity.
  - discriminate.
  - repeat constructor; vm_compute; discriminate.
  - repeat constructor; eexists; split; reflexivity.
Defined.

(** ** Batched evaluation with a constant history *)

Section ConstantHistory.

Variable self : ContinuousExt.
Hypothesis no_discont : repeated_t self = false.
Variable v y0 : list Z.
Hypothesis const_history : Py.index (interpolants self) 0 = Ok (HistConst v).
Hypothesis first_state : Py.getitem (ys self) 0 = Ok y0.
Hypothesis state_dim : length v = length y0.

(** A history run of [Nt] points: [Nt] copies of the constant, whatever
    times the loop reads. *)
Lemma constant_history_block (t : list time) (Nt : nat) :
  (Nt <= length t)%nat -> history_block self 0 t Nt = Ok (repeat v Nt).
Proof.
  intros HNt. unfold history_block.
  rewrite const_history, first_state. cbn [bind].
  rewrite (mapM_pointwise _ (fun _ => v)).
  - f_equal. clear. generalize 0%nat.
    induction Nt as [|n IH]; intros k; [reflexivity|].
    simpl. f_equal. apply IH.
  - intros k Hk. apply in_seq in Hk.
    rewrite (getitem_Ok t k 0) by lia. cbn [bind history_value].
    unfold set_column. rewrite state_dim, Nat.eqb_refl. reflexivity.
Qed.

Lemma constant_history_column (x : time) (y : list Z) :
  select_segment self x = 0 -> _call_single self x = Ok y -> y = v.
Proof.
  intros Hseg Hy.
  rewrite call_single_regular in Hy by (rewrite no_discont; reflexivity).
  rewrite Hseg, const_history in Hy. simpl in Hy. now injection Hy.
Qed.

(** The run loop with a constant history: the scalar columns of the
    sorted times, wherever the history run stands. *)
Lemma eval_groups_constant_history (t0 full : list time) :
  forall (l : list time) (start : nat),
    skipn start full = l ->
    (length l <= length t0)%nat ->
    Forall (fun x => exists y, _call_single self x = Ok y) l ->
    exists blocks,
      eval_groups self t0 full start
        (Py.groupby (map (select_segment self) l)) = Ok blocks
      /\ concat blocks = map (scalar_column self) l
      /\ Forall (fun b => b <> []) blocks.
Proof.
  induction l as [|x l IH]; intros start Hskip Hlen Hall.
  - exists []. simpl. auto.
  - inversion Hall as [|? ? [y Hy] Hl]; subst.
    assert (Hskip' : skipn (S start) full = l).
    { change (S start) with (1 + start)%nat.
      rewrite <- skipn_skipn, Hskip. reflexivity. }
    simpl in Hlen.
    destruct (IH (S start) Hskip' ltac:(lia) Hl)
      as (blocks & Hblocks & Hcat & Hne).
    assert (Hcol : scalar_column self x = y)
      by (unfold scalar_column; now rewrite Hy).
    assert (Hfirst : forall c,
              (length (firstn c l) <= length t0)%nat).
    { intros c. rewrite length_firstn. lia. }
    simpl map. cbn [Py.groupby].
    destruct (Z.eqb_spec (select_segment self x) 0) as [H0|H0].
    + (* a time of the history segment *)
      pose proof (constant_history_column x y H0 Hy) as Hv.
      rewrite Hv in Hcol.
      rewrite H0.
      destruct (Py.groupby (map (select_segment self) l))
        as [|[k c] gs] eqn:Hg.
      * apply groupby_nil, map_eq_nil in Hg. subst l.
        exists [[v]]. rewrite eval_groups_cons, Z.eqb_refl.
        rewrite (slice_skipn full [x] start 1 Hskip).
        rewrite constant_history_block by (simpl; lia).
        simpl. rewrite Hcol. repeat split; repeat constructor; discriminate.
      * destruct (Z.eqb_spec 0 k) as [Hk|Hk].
        -- subst k. rewrite eval_groups_cons in Hblocks |- *.
           rewrite Z.eqb_refl in Hblocks |- *.
           rewrite (slice_skipn full l (S start) c Hskip') in Hblocks.
           rewrite (slice_skipn full (x :: l) start (S c) Hskip).
           rewrite constant_history_block in Hblocks by apply Hfirst.
           rewrite constant_history_block
             by (rewrite length_firstn; simpl length; lia).
           cbn [bind] in Hblocks |- *.
           replace (start + S c)%nat with (S start + c)%nat by lia.
           apply bind_Ok in Hblocks as (rest & Hrest & Hblocks).
           injection Hblocks as <-. rewrite Hrest. cbn [bind].
           eexists. split; [reflexivity|]. split.
           ++ simpl in Hcat |- *. rewrite Hcat, Hcol. reflexivity.
           ++ inversion Hne; subst. constructor; [discriminate | assumption].
        -- rewrite eval_groups_cons, Z.eqb_refl.
           rewrite (slice_skipn full (x :: l) start 1 Hskip).
           rewrite constant_history_block by (simpl; lia).
           cbn [bind].
           replace (start + 1)%nat with (S start) by lia.
           rewrite Hblocks. cbn [bind].
           exists ([v] :: blocks). split; [reflexivity|]. split.
           ++ simpl. rewrite Hcat, Hcol. reflexivity.
           ++ constructor; [discriminate | assumption].
    + (* a time of a later segment: as in [eval_groups_off_history] *)
      assert (Hx : off_history self x) by (split; eauto).
      destruct (off_history_object self no_discont x Hx)
        as (obj & f & Hobj & Harr & Hsc & Hcolf).
      assert (Hseg : (select_segment self x =? 0) = false)
        by (apply Z.eqb_neq; exact H0).
      destruct (Py.groupby (map (select_segment self) l))
        as [|[k c] gs] eqn:Hg.
      * apply groupby_nil, map_eq_nil in Hg. subst l.
        exists [[f x]]. rewrite eval_groups_cons, Hseg, Hobj. cbn [bind].
        rewrite Harr, (slice_skipn full [x] start 1 Hskip). simpl.
        rewrite Hcolf. repeat split; repeat constructor; discriminate.
      * destruct (Z.eqb_spec (select_segment self x) k) as [Hk|Hk].
        -- subst k. rewrite eval_groups_cons in Hblocks |- *.
           rewrite Hseg, Hobj in Hblocks |- *. cbn [bind] in Hblocks |- *.
           rewrite Harr in Hblocks |- *. cbn [bind] in Hblocks |- *.
           rewrite (slice_skipn full l (S start) c Hskip') in Hblocks.
           rewrite (slice_skipn full (x :: l) start (S c) Hskip).
           replace (start + S c)%nat with (S start + c)%nat by lia.
           apply bind_Ok in Hblocks as (rest & Hrest & Hblocks).
           injection Hblocks as <-. rewrite Hrest. cbn [bind].
           exists (map f (firstn (S c) (x :: l)) :: rest).
           split; [reflexivity|]. split.
           ++ simpl in Hcat |- *. rewrite Hcat, Hcolf. reflexivity.
           ++ inversion Hne; subst. constructor; [discriminate | assumption].
        -- rewrite eval_groups_cons, Hseg, Hobj. cbn [bind].
           rewrite Harr. cbn [bind].
           rewrite (slice_skipn full (x :: l) start 1 Hskip).
           replace (start + 1)%nat with (S start) by lia.
           rewrite Hblocks. cbn [bind].
           exists ([f x] :: blocks). split; [reflexivity|]. split.
           ++ simpl. rewrite Hcat, Hcolf. reflexivity.
           ++ constructor; [discriminate | assumption].
Qed.

End ConstantHistory.

(** X21.  When the history entry [interpolants[0]] is a constant vector
    of the state dimension, the batched call on a constructed instance
    without discontinuities agrees with the scalar path for every
    non-empty query array, sorted or not, and in both orientations,
    provided every scalar result has that dimension. *)
Theorem X21_constant_history_batched_matches_scalar
    (self : ContinuousExt) (t : list time) (v : vec) :
  wf self ->
  repeated_t self = false ->
  t <> [] ->
  nth_error (interpolants self) 0 = Some (HistConst v) ->
  length (hd [] (ys self)) = length v ->
  Forall (fun x => exists y, _call_single self x = Ok y
                             /\ length y = length v) t ->
  exists m,
    call_batched self t = Ok m
    /\ length m = length t
    /\ forall j x, nth_error t j = Some x ->
         exists y, nth_error m j = Some y /\ _call_single self x = Ok y.
Proof.
  intros Hwf Hrep Hne Hhist Hdim Hall.
  assert (Hsc : forall x, In x t ->
            _call_single self x = Ok (scalar_column self x)
            /\ length (scalar_column self x) = length v).
  { intros x Hx. rewrite Forall_forall in Hall.
    destruct (Hall x Hx) as (y & Hy & Hl).
    unfold scalar_column. rewrite Hy. auto. }
  assert (Hbatched : call_batched self t = Ok (map (scalar_column self) t)).
  { pose proof (wf_len_ts self Hwf) as Hlts.
    pose proof (wf_len_ys self Hwf) as Hlys.
    destruct (ys self) as [|y0 ys'] eqn:Hys; [simpl in Hlys; lia|].
    assert (Hfirst : Py.getitem (ys self) 0 = Ok y0)
      by (rewrite Hys; reflexivity).
    simpl hd in Hdim.
    assert (Hconst : Py.index (interpolants self) 0 = Ok (HistConst v)).
    { change 0 with (Z.of_nat 0). rewrite index_nat.
      unfold Py.getitem. rewrite Hhist. reflexivity. }
    set (t_sorted := map (fun i => nth i t 0) (Np.argsort t)).
    assert (Hin : forall x, In x t_sorted -> In x t).
    { intros x Hx. apply in_map_iff in Hx as (i & <- & Hi).
      apply nth_In.
      apply (Permutation_in _ (argsort_perm t)) in Hi.
      apply in_seq in Hi. lia. }
    destruct (eval_groups_constant_history self Hrep v y0 Hconst Hfirst
                (eq_sym Hdim) t t_sorted t_sorted 0 eq_refl)
      as (blocks & Hblocks & Hcat & Hnonempty).
    - unfold t_sorted. rewrite length_map, argsort_length. lia.
    - rewrite Forall_forall. intros x Hx.
      exists (scalar_column self x). apply Hsc, Hin, Hx.
    - apply (batched_from_blocks self t blocks (length v) Hrep Hne);
        fold t_sorted; rewrite ?segments_of_select; auto.
      rewrite Forall_forall. intros x Hx. apply Hsc. exact Hx. }
  exists (map (scalar_column self) t). split; [exact Hbatched|].
  split; [apply length_map|].
  intros j x Hj. exists (scalar_column self x). split.
  - rewrite nth_error_map, Hj. reflexivity.
  - apply Hsc. eapply nth_error_In. exact Hj.
Qed.

Lemma X21_constant_history_batched_matches_scalar_witness :
  exists m,
    call_batched up_instance [sec 6; sec 2] = Ok m
    /\ length m = 2%nat
    /\ forall j x, nth_error [sec 6; sec 2] j = Some x ->
         exists y, nth_error m j = Some y /\ _call_single up_instance x = Ok y.
Proof.
  apply (X21_constant_history_batched_matches_scalar up_instance
           [sec 6; sec 2] [5]).
  - exact up_instance_wf.
  - reflexivity.
  - discriminate.
  - reflexivity.
  - reflexivity.
  - repeat constructor; eexists; split; reflexivity.
Defined.

(** ** More on [reorganize] *)

Lemma searchsorted_left_firstn (l : list Z) (v : Z) :
  forall k, (Np.searchsorted_left l v < k)%nat ->
    Np.searchsorted_left (firstn k l) v = Np.searchsorted_left l v.
Proof.
  induction l as [|x l IH]; intros k Hk; [now rewrite firstn_nil|].
  destruct k as [|k]; [lia|].
  simpl in *. destruct (x <? v); [|reflexivity].
  f_equal. apply IH. lia.
Qed.

(** X13.  On a sorted [ts], truncating at [t1] and then at an earlier or
    equal [t0] gives the same object as truncating at [t0] at once; in
    particular [reorganize] is idempotent. *)
Theorem X13_reorganize_composes
    (self : ContinuousExt) (t0 t1 : time) :
  StronglySorted Z.le (ts self) ->
  t0 <= t1 ->
  reorganize (reorganize self t1) t0 = reorganize self t0
  /\ reorganize (reorganize self t0) t0 = reorganize self t0.
Proof.
  intros _ Hle.
  assert (H : forall a b, a <= b ->
             reorganize (reorganize self b) a = reorganize self a).
  { intros a b Hab.
    pose proof (searchsorted_left_mono (ts self) a b Hab) as Hmono.
    unfold reorganize at 1. cbn [ts interpolants repeated_t idxs t_discont
      y_discont ys n_segments t_min t_max ascending ts_sorted reorganize].
    unfold Py.slice_to.
    rewrite searchsorted_left_firstn by lia.
    rewrite !firstn_firstn.
    replace (Nat.min (S (Np.searchsorted_left (ts self) a))
               (S (Np.searchsorted_left (ts self) b)))
      with (S (Np.searchsorted_left (ts self) a)) by lia.
    reflexivity. }
  split; [apply H; exact Hle | apply H; lia].
Qed.

Lemma X13_reorganize_composes_witness :
  reorganize (reorganize up_instance (sec 8)) (sec 4)
  = reorganize up_instance (sec 4)
  /\ reorganize (reorganize up_instance (sec 4)) (sec 4)
     = reorganize up_instance (sec 4).
Proof.
  apply X13_reorganize_composes.
  - repeat constructor; vm_compute; discriminate.
  - vm_compute. discriminate.
Defined.

Lemma index_past_end {A} (l : list A) (s : Z) :
  Z.of_nat (length l) <= s -> Py.index l s = Raise IndexError.
Proof.
  intros Hs. unfold Py.index.
  replace (s <? Z.of_nat (length l)) with false
    by (symmetry; apply Z.ltb_ge; exact Hs).
  replace (s <? 0) with false by (symmetry; apply Z.ltb_ge; lia).
  rewrite !andb_false_r. reflexivity.
Qed.

(** X14.  [reorganize] does not update [n_segments] or the search view.
    After truncating an ascending instance without discontinuities at the
    boundary [ts[i]], a scalar query later than [ts[i+1]] still selects
    its old segment, which is no longer stored, and raises [IndexError]
    (it is neither clamped nor extrapolated). *)
Theorem X14_query_beyond_truncation_fails
    (self : ContinuousExt) (i : nat) (t : time) :
  wf self ->
  ascending self = true ->
  repeated_t self = false ->
  (S (S i) < length (ts self))%nat ->
  nth (S i) (ts self) 0 < t ->
  _call_single (reorganize self (nth i (ts self) 0)) t = Raise IndexError.
Proof.
  intros Hwf Hasc Hrep Hi Ht.
  pose proof (wf_len_ts self Hwf) as Hlen.
  pose proof (wf_len_interp self Hwf) as Hlen'.
  pose proof (wf_ts_sorted self Hwf) as Hview. rewrite Hasc in Hview.
  destruct (wf_sorted_view self Hwf) as (Hsorted & _ & _).
  rewrite Hview in Hsorted.
  assert (Hinc : strictly_increasing (ts self)).
  { destruct (wf_oriented self Hwf) as [_ _ [H|[a Hz]] | Ha _ _];
      [exact H | rewrite Hz in Hi; simpl in Hi; lia | congruence]. }
  assert (Hidx : Np.searchsorted_left (ts self) (nth i (ts self) 0) = i).
  { apply searchsorted_left_nth; [apply Sorted_lt_strong; exact Hinc | lia]. }
  assert (Hp : (S (S i) <= Np.searchsorted_left (ts self) t)%nat).
  { destruct (searchsorted_left_spec (ts self) t 0) as [_ Hat].
    pose proof (searchsorted_left_le (ts self) t) as Hle.
    destruct (Nat.le_gt_cases (S (S i)) (Np.searchsorted_left (ts self) t))
      as [|Hgt]; [assumption|].
    specialize (Hat ltac:(lia)).
    pose proof (sorted_nth_le _ Hsorted
                  (Np.searchsorted_left (ts self) t) (S i) 0 ltac:(lia)).
    lia. }
  assert (Hseg : Z.of_nat (S i) <= select_segment self t).
  { unfold select_segment. rewrite Hasc, Hview.
    simpl Np.searchsorted. simpl negb. cbv iota. lia. }
  unfold _call_single.
  change (repeated_t (reorganize self (nth i (ts self) 0)))
    with (repeated_t self).
  change (select_segment (reorganize self (nth i (ts self) 0)) t)
    with (select_segment self t).
  change (interpolants (reorganize self (nth i (ts self) 0)))
    with (firstn (S (Np.searchsorted_left (ts self) (nth i (ts self) 0)))
            (interpolants self)).
  rewrite Hrep, Hidx. simpl andb. cbv iota.
  assert (Hpast : Py.index (firstn (S i) (interpolants self))
                    (select_segment self t) = Raise IndexError).
  { apply index_past_end. rewrite length_firstn. lia. }
  rewrite Hpast.
  destruct (select_segment self t =? 0); reflexivity.
Qed.

Lemma X14_query_beyond_truncation_fails_witness :
  _call_single (reorganize up_instance (nth 0 (ts up_instance) 0)) (sec 7)
  = Raise IndexError.
Proof.
  apply X14_query_beyond_truncation_fails.
  - exact up_instance_wf.
  - reflexivity.
  - reflexivity.
  - simpl. lia.
  - reflexivity.
Defined.

(** ** Parameter validation *)



Lemma any_negative_false (atol : tolerance) :
  any_negative atol = false ->
  match atol with
  | TolScalar a => 0 <= a
  | TolVector a => Forall (fun x => 0 <= x) a
  end.
Proof.
  destruct atol as [a|a]; simpl; intros H.
  - apply Z.ltb_ge. exact H.
  - apply Forall_forall. intros x Hx. apply Z.ltb_ge.
    destruct (x <? 0) eqn:Hneg; [|reflexivity].
    assert (existsb (fun x => x <? 0) a = true)
      by (apply existsb_exists; eauto).
    congruence.
Qed.

(** X16.  [validate_tol] warns exactly when [rtol < 100 * EPS], also when
    it then raises.  When it returns, [atol] is unchanged, non-negative,
    and of length [n] if it is a vector; the returned [rtol] is
    [max(rtol, 100 * EPS)]; and validating the returned pair again returns
    it unchanged without a warning. *)
Theorem X16_validate_tol_postcondition
    (rtol : Z) (atol : tolerance) (n : nat) :
  fst (validate_tol rtol atol n)
  = (if rtol <? 100 * EPS then [RtolTooLow (100 * EPS)] else [])
  /\ forall rtol' atol',
      snd (validate_tol rtol atol n) = Ok (rtol', atol') ->
      rtol' = Z.max rtol (100 * EPS)
      /\ 100 * EPS <= rtol'
      /\ atol' = atol
      /\ match atol with
         | TolScalar a => 0 <= a
         | TolVector a => length a = n /\ Forall (fun x => 0 <= x) a
         end
      /\ validate_tol rtol' atol' n = ([], Ok (rtol', atol')).
Proof.
  unfold validate_tol. generalize (100 * EPS). intros floor.
  assert (Hatol : wrong_shape atol n = false -> any_negative atol = false ->
            match atol with
            | TolScalar a => 0 <= a
            | TolVector a => length a = n /\ Forall (fun x => 0 <= x) a
            end).
  { intros Hshape Hneg. pose proof (any_negative_false atol Hneg) as Hnonneg.
    destruct atol as [a|a]; [exact Hnonneg|]. split; [|exact Hnonneg].
    simpl in Hshape. apply negb_false_iff, Nat.eqb_eq in Hshape.
    exact Hshape. }
  destruct (Z.ltb_spec rtol floor) as [Hlow|Hok];
    destruct (wrong_shape atol n) eqn:Hshape;
    destruct (any_negative atol) eqn:Hneg; cbn [fst snd];
    (split; [reflexivity|]); intros rtol' atol' H; try discriminate;
    injection H as <- <-; rewrite Hshape, Hneg.
  - rewrite Z.ltb_irrefl. repeat split; auto; try lia.
    apply Hatol; reflexivity.
  - replace (rtol <? floor) with false
      by (symmetry; apply Z.ltb_ge; exact Hok).
    repeat split; auto; try lia.
    apply Hatol; reflexivity.
Qed.

Lemma X16_validate_tol_postcondition_witness :
  validate_tol (100 * EPS) (TolVector [1; 2]) 2
  = ([], Ok (100 * EPS, TolVector [1; 2])).
Proof.
  destruct (X16_validate_tol_postcondition EPS (TolVector [1; 2]) 2)
    as [_ H].
  destruct (H (100 * EPS) (TolVector [1; 2])) as (_ & _ & _ & _ & Hagain).
  - reflexivity.
  - exact Hagain.
Defined.

(** ** More on the initial step *)

Section InitialStepFacts.

Local Open Scope R_scope.

Variable History : Type.

Lemma norm_zeros (x : list R) : Forall (fun a => a = 0) x -> norm x = 0.
Proof.
  intros H. unfold norm, norm2.
  replace (fold_right (fun a acc => a * a + acc) 0 x) with 0.
  - rewrite sqrt_0. unfold Rdiv. apply Rmult_0_l.
  - induction H as [|a x Ha _ IH]; [reflexivity|].
    simpl. rewrite <- IH, Ha. lra.
Qed.

Lemma zip_with_zeros_l (op : R -> R -> R) (x y : list R) :
  (forall b, op 0 b = 0) ->
  Forall (fun a => a = 0) x -> Forall (fun a => a = 0) (zip_with op x y).
Proof.
  intros Hop H. revert y. induction H as [|a x Ha _ IH]; intros y;
    [constructor|].
  destruct y as [|b y]; [constructor|].
  simpl. constructor; [rewrite Ha; apply Hop | apply IH].
Qed.

Lemma zip_with_minus_self (x : list R) :
  Forall (fun a => a = 0) (zip_with Rminus x x).
Proof.
  induction x as [|a x IH]; simpl; constructor; [lra | exact IH].
Qed.



Lemma sum_squares_repeat (a : R) (n : nat) :
  fold_right (fun x acc => x * x + acc) 0 (repeat a n) = INR n * (a * a).
Proof.
  induction n as [|n IH]; [simpl; lra|].
  cbn [repeat fold_right]. rewrite IH, S_INR. lra.
Qed.


End InitialStepFacts.



